(** * melody_creator: notes, tempi and melodies

    A shallow embedding of the Python package [melody_creator]
    (articulations.py, note.py, tempo.py, melody.py) together with the
    properties of its note/tempo conversion engine.

    Python values are modelled as follows.
    - [fractions.Fraction] is [Qc], the rationals in lowest terms with a
      positive denominator, so that [==] on fractions is Leibniz equality.
    - [int] is [Z].
    - A raised exception is the [Raise] branch of [result]; only the class
      of the exception is recorded.
    - music21 objects (pitches, notes, slurs, metronome marks) are not part
      of the package; the interface the package uses is the class
      [PitchOps] and the records whose names start with [m21_]. *)

From Stdlib Require Import ZArith QArith Qcanon Lia Lqa Permutation Sorted.
From stdpp Require Import base tactics option list numbers.
From Stdlib Require String Ascii DecimalString DecimalZ.
Import String.StringSyntax Ascii.AsciiSyntax.
Delimit Scope string_scope with string.

Local Open Scope Z_scope.

(** ** Python primitives *)

Module Py.

(** Exception classes raised by the modelled code. *)
Inductive exn : Set :=
| ZeroDivisionError
| ValueError
| IndexError
| KeyError.

Inductive result (A : Type) : Type :=
| Ok (a : A)
| Raise (e : exn).
Global Arguments Ok {A} a.
Global Arguments Raise {A} e.

Global Instance result_ret : MRet result := fun A a => Ok a.
Global Instance result_bind : MBind result := fun A B f m =>
  match m with
  | Ok a => f a
  | Raise e => Raise e
  end.

Definition is_Ok {A} (r : result A) : Prop := exists a, r = Ok a.
Definition is_Raise {A} (r : result A) : Prop := exists e, r = Raise e.

(** [Fraction(n, d)] for a positive literal denominator. *)
Definition Fraction (n : Z) (d : positive) : Qc := Q2Qc (n # d).

(** [int * Fraction], [Fraction * int]: the integer is promoted. *)
Definition of_int (z : Z) : Qc := Qc_of_Z z.

(** [Fraction.__truediv__]: a zero divisor raises. *)
Definition truediv (a b : Qc) : result Qc :=
  if decide (b = 0%Qc) then Raise ZeroDivisionError else Ok (a / b)%Qc.

(** [Fraction.__round__] with [ndigits=None]:
<<
    floor, remainder = divmod(self.numerator, self.denominator)
    if remainder * 2 < d: return floor
    elif remainder * 2 > d: return floor + 1
    elif floor % 2 == 0: return floor
    else: return floor + 1
>>
    [divmod] with a positive divisor is floor division, as [Z.div]. *)
Definition round (q : Qc) : Z :=
  let d := Z.pos (Qden q) in
  let floor := Qnum q / d in
  let remainder := Qnum q mod d in
  if remainder * 2 <? d then floor
  else if remainder * 2 >? d then floor + 1
  else if floor mod 2 =? 0 then floor
  else floor + 1.

(** [min(a, b)] and [max(a, b)]: the first argument is kept unless the
    second is strictly smaller (resp. strictly larger). *)
Definition min (a b : Qc) : Qc := if decide (b < a)%Qc then b else a.
Definition max (a b : Qc) : Qc := if decide (a < b)%Qc then b else a.

(** [sorted(l, key=key)]: a stable sort on rational keys. *)
Section Sorted.
Context {A : Type} (key : A -> Qc).

Fixpoint insert (x : A) (l : list A) : list A :=
  match l with
  | [] => [x]
  | y :: l' =>
      if decide (key y < key x)%Qc then y :: insert x l' else x :: y :: l'
  end.

Definition sorted (l : list A) : list A := foldr insert [] l.
End Sorted.

(** [l[-1]]: the last element, [IndexError] on the empty list. *)
Definition last_item {A} (l : list A) : result A :=
  match list.last l with
  | Some x => Ok x
  | None => Raise IndexError
  end.

(** [l[:-1]]: all but the last element; empty on the empty list. *)
Definition but_last {A} (l : list A) : list A := removelast l.

(** A [for] loop whose body may raise, threading the loop state. *)
Fixpoint for_each {A S} (body : S -> A -> result S) (l : list A) (s : S)
  : result S :=
  match l with
  | [] => Ok s
  | x :: l' => s' ← body s x; for_each body l' s'
  end.

(** A list comprehension whose element expression may raise. *)
Fixpoint comprehension {A B} (f : A -> result B) (l : list A)
  : result (list B) :=
  match l with
  | [] => Ok []
  | x :: l' => y ← f x; ys ← comprehension f l'; Ok (y :: ys)
  end.

End Py.
Import Py.

(** ** articulations.py *)

Module articulations.
Definition STACCATISSIMO : Qc := Fraction 1 7.
Definition STACCATO : Qc := Fraction 2 7.
Definition MEZZO_STACCATO : Qc := Fraction 3 7.
Definition PORTATO : Qc := Fraction 4 7.
Definition NON_LEGATO : Qc := Fraction 5 7.
Definition TENUTO : Qc := Fraction 6 7.
Definition LEGATO : Qc := Fraction 1 1.
End articulations.

(** ** The pitch interface

    [music21.pitch.Pitch] is used through [!=] and through [freq440], a
    Python float.  A finite float is a rational, and the built-in [round]
    of a float is exact round-half-to-even on its value, so [freq440] is
    given as the exact rational value of the float. *)

Class PitchOps (Pitch : Type) := {
  pitch_eq_dec :: EqDecision Pitch;
  freq440 : Pitch -> Qc
}.

(** [round(x)] for a float [x] given by its exact value. *)
Definition round_float (x : Qc) : Z := round x.

(** ** note.py *)

Section NoteTempo.
Context {Pitch : Type} `{PitchOps Pitch}.

Record Note : Type := mkNote {
  pitch : Pitch;
  offset : Qc;
  duration : Qc;
  articulation : Qc
}.

(** [Note.__init__]: the three numbers go through [Fraction(...)], which
    is the identity on rationals; nothing is checked. *)
Definition Note_init (pitch : Pitch) (offset duration articulation : Qc)
  : result Note :=
  Ok (mkNote pitch offset duration articulation).

(** [Note.end_offset] *)
Definition end_offset (n : Note) : Qc := (offset n + duration n)%Qc.

(** The [articulation] setter. *)
Definition set_articulation (a : Qc) (n : Note) : Note :=
  mkNote (pitch n) (offset n) (duration n) a.

(** [Note.tie_with] *)
Definition tie_with (self other : Note) : result Note :=
  if decide (pitch self <> pitch other) then Raise ValueError
  else
    let offset := min (offset self) (offset other) in
    let duration :=
      max (end_offset self - offset)%Qc (end_offset other - offset)%Qc in
    Note_init (pitch self) offset duration (articulation other).

Record MachineNote : Type := mkMachineNote {
  frequency : Z;
  offset_millis : Z;
  duration_millis : Z
}.

(** ** tempo.py *)

Record Tempo : Type := mkTempo {
  subdivision : Qc;
  beats_per_minute : Z
}.

(** [Tempo.__init__]: [Fraction(subdivision)], [int(beats_per_minute)]
    on a rational and an integer. *)
Definition Tempo_init (subdivision : Qc) (beats_per_minute : Z) : Tempo :=
  mkTempo subdivision beats_per_minute.

Definition quarter_equals (beats_per_minute : Z) : Tempo :=
  Tempo_init (Fraction 1 4) beats_per_minute.

(** [Tempo.convert_to_subdivision] *)
Definition convert_to_subdivision (self : Tempo) (subdivision' : Qc)
  : result Tempo :=
  q ← truediv (of_int (beats_per_minute self) * subdivision')%Qc
              (subdivision self);
  Ok (Tempo_init subdivision' (round q)).

(** [Tempo.__wholes_to_milliseconds] *)
Definition wholes_to_milliseconds (self : Tempo) (duration : Qc)
  : result Z :=
  q ← truediv duration
              (of_int (beats_per_minute self) * subdivision self)%Qc;
  Ok (round (q * of_int 60000)%Qc).

(** [Tempo.note_to_machine_note]: the arguments of [MachineNote(...)] are
    evaluated left to right. *)
Definition note_to_machine_note (self : Tempo) (note : Note)
  : result MachineNote :=
  let actual_duration_wholes := (articulation note * duration note)%Qc in
  let f := round_float (freq440 (pitch note)) in
  o ← wholes_to_milliseconds self (offset note);
  d ← wholes_to_milliseconds self actual_duration_wholes;
  Ok (mkMachineNote f o
        (100 + d - round (articulation note * of_int 100)%Qc)).

(** ** The music21 interface used by melody.py

    The class of an articulation object, as [type(a)] sees it.  The five
    first classes are those melody.py names; the others stand for every
    other class of [music21.articulations]. *)
Inductive m21_articulation : Set :=
| Staccatissimo
| Staccato
| Spiccato
| DetachedLegato
| Tenuto
| Accent
| StrongAccent
| OtherArticulation (id : nat).

Global Instance m21_articulation_eq_dec : EqDecision m21_articulation.
Proof. solve_decision. Defined.

(** A [music21.note.Note] as melody.py reads it; [m21_offset] and
    [m21_quarterLength] are in quarter lengths. *)
Record m21_Note : Type := mk_m21_Note {
  m21_pitch : Pitch;
  m21_offset : Qc;
  m21_quarterLength : Qc;
  m21_articulations : list m21_articulation
}.

(** A sounding metronome mark: [referent.quarterLength] and
    [numberSounding], taken to be an integer. *)
Record m21_MetronomeMark : Type := mk_m21_MetronomeMark {
  m21_referent_quarterLength : Qc;
  m21_numberSounding : Z
}.

(** What melody.py reads of a stream.  [m21_notes] is
    [stream.flatten().stripTies().getElementsByClass(Note)] in order; a
    note object is identified by its position in that list.  A slur is
    the list [getSpannedElementsByClass(Note)] of the identities of the
    notes it spans (an identity beyond the list is a note object that is
    not in the flattened stream).  [m21_tempo_indications] are the
    sounding metronome marks of the tempo indications, in order. *)
Record m21_Stream : Type := mk_m21_Stream {
  m21_notes : list m21_Note;
  m21_slurs : list (list nat);
  m21_tempo_indications : list m21_MetronomeMark
}.

(** ** melody.py *)

(** The dict literal [MUSIC21_ARTICULATION_MAPPING]. *)
Definition MUSIC21_ARTICULATION_MAPPING : list (m21_articulation * Qc) :=
  [ (Staccatissimo, articulations.STACCATISSIMO);
    (Staccato, articulations.STACCATO);
    (Spiccato, articulations.STACCATISSIMO);
    (DetachedLegato, articulations.NON_LEGATO);
    (Tenuto, articulations.TENUTO) ].

(** [d.get(k)] on a dict given by its items. *)
Definition dict_get {K V} `{EqDecision K} (d : list (K * V)) (k : K)
  : option V :=
  snd <$> find (fun kv => bool_decide (fst kv = k)) d.

Record Melody : Type := mkMelody {
  notes : list Note;
  tempo : Tempo
}.

(** [Melody.__init__] *)
Definition Melody_init (notes : list Note) (tempo : Tempo)
  : result Melody :=
  Ok (mkMelody (sorted offset notes) tempo).

(** [Melody.__init__] with the default tempo. *)
Definition Melody_init_default (notes : list Note) : result Melody :=
  Melody_init notes (quarter_equals 120).

Definition number_of_notes (self : Melody) : Z :=
  Z.of_nat (length (notes self)).

(** [Melody.duration] *)
Definition Melody_duration (self : Melody) : result Qc :=
  n ← last_item (notes self);
  n' ← last_item (notes self);
  Ok (offset n + duration n')%Qc.

(** [Melody.get_machine_notes] *)
Definition get_machine_notes (self : Melody) : result (list MachineNote) :=
  comprehension (note_to_machine_note (tempo self)) (notes self).

(** [Melody.get_actual_duration] *)
Definition get_actual_duration (self : Melody) : result Z :=
  mnotes ← get_machine_notes self;
  m ← last_item mnotes;
  m' ← last_item mnotes;
  Ok (offset_millis m + duration_millis m').

(** [notes[k].articulation = a] on the dict [notes], whose values are
    held in insertion order and whose keys are note identities. *)
Definition assign_articulation (a : Qc) (arena : list Note) (k : nat)
  : result (list Note) :=
  match arena !! k with
  | Some n => Ok (<[k := set_articulation a n]> arena)
  | None => Raise KeyError
  end.

(** The dict comprehension of [from_stream]. *)
Definition initial_notes (flattened : list m21_Note) : result (list Note) :=
  comprehension
    (fun note => Note_init (m21_pitch note)
                   (m21_offset note / of_int 4)%Qc
                   (m21_quarterLength note / of_int 4)%Qc
                   articulations.NON_LEGATO)
    flattened.

(** The loop over the slurs. *)
Definition slur_pass (slurs : list (list nat)) (arena : list Note)
  : result (list Note) :=
  for_each
    (fun arena slur =>
       for_each (assign_articulation articulations.LEGATO)
                (but_last slur) arena)
    slurs arena.

(** [any(a for a in arts if type(a) is cls)]: articulation objects are
    truthy. *)
Definition any_of_type (cls : m21_articulation)
    (arts : list m21_articulation) : bool :=
  existsb (fun a => bool_decide (a = cls)) arts.

(** [next((a for a in arts if type(a) in MAPPING), None)] *)
Definition first_mapped (arts : list m21_articulation)
  : option m21_articulation :=
  find (fun a =>
          bool_decide (is_Some (dict_get MUSIC21_ARTICULATION_MAPPING a)))
       arts.

(** The body of the loop over [notes.items()]. *)
Definition marking_step (arena : list Note) (item : nat * m21_Note)
  : result (list Note) :=
  let '(k, original_note) := item in
  match m21_articulations original_note with
  | [] => Ok arena
  | _ :: _ =>
      let arts := m21_articulations original_note in
      if any_of_type Staccato arts && any_of_type Tenuto arts
      then assign_articulation articulations.MEZZO_STACCATO arena k
      else
        match first_mapped arts with
        | Some a =>
            match dict_get MUSIC21_ARTICULATION_MAPPING a with
            | Some r => assign_articulation r arena k
            | None => Raise KeyError
            end
        | None => Ok arena
        end
  end.

Definition marking_pass (flattened : list m21_Note) (arena : list Note)
  : result (list Note) :=
  for_each marking_step (imap pair flattened) arena.

(** [_get_tempo_from_stream] *)
Definition _get_tempo_from_stream (stream : m21_Stream) : option Tempo :=
  match m21_tempo_indications stream with
  | metronome_mark :: _ =>
      Some (Tempo_init
              (m21_referent_quarterLength metronome_mark / of_int 4)%Qc
              (m21_numberSounding metronome_mark))
  | [] => None
  end.

(** The note values of [from_stream] once both passes are done, in dict
    order. *)
Definition from_stream_notes (stream : m21_Stream) : result (list Note) :=
  arena ← initial_notes (m21_notes stream);
  arena ← slur_pass (m21_slurs stream) arena;
  marking_pass (m21_notes stream) arena.

(** [Melody.from_stream] *)
Definition from_stream (stream : m21_Stream) : result Melody :=
  arena ← from_stream_notes stream;
  let tempo :=
    match _get_tempo_from_stream stream with
    | Some t => t
    | None => quarter_equals 120
    end in
  Melody_init arena tempo.

End NoteTempo.

Global Arguments Note Pitch : clear implicits.
Global Arguments m21_Note Pitch : clear implicits.
Global Arguments m21_Stream Pitch : clear implicits.
Global Arguments Melody Pitch : clear implicits.

(** A small concrete pitch type for worked examples: concert A and the E
    above it, with their [freq440] values 440.0 and 659.2551138257398
    (the latter to microhertz). *)
Inductive SamplePitch : Set := A4 | E5.

Global Instance SamplePitch_ops : PitchOps SamplePitch := {
  pitch_eq_dec := ltac:(unfold EqDecision, Decision; decide equality);
  freq440 := fun p =>
    match p with
    | A4 => Fraction 440 1
    | E5 => Fraction 659255114 1000000
    end
}.

(** ** Definitions used to state the properties *)

(** The millisecond conversion as a closed formula, with total division:
    [round(d / (beats_per_minute * subdivision) * 60000)]. *)
Definition spec_millis (t : Tempo) (d : Qc) : Z :=
  round (d / (of_int (beats_per_minute t) * subdivision t) * of_int 60000)%Qc.

Definition valid_tempo (t : Tempo) : Prop :=
  (0 < subdivision t)%Qc /\ 0 < beats_per_minute t.

(** [m] is the smaller (resp. larger) of [x] and [y]. *)
Definition is_min (x y m : Qc) : Prop :=
  (m = x \/ m = y) /\ (m <= x)%Qc /\ (m <= y)%Qc.
Definition is_max (x y m : Qc) : Prop :=
  (m = x \/ m = y) /\ (x <= m)%Qc /\ (y <= m)%Qc.

(** The ratio the marking loop assigns to a note with markings [arts], if
    it assigns one. *)
Definition marking_target (arts : list m21_articulation) : option Qc :=
  if any_of_type Staccato arts && any_of_type Tenuto arts
  then Some articulations.MEZZO_STACCATO
  else a ← first_mapped arts; dict_get MUSIC21_ARTICULATION_MAPPING a.

(** Membership of a note identity in the legato part of some slur. *)
Definition slurred (slurs : list (list nat)) (i : nat) : Prop :=
  Exists (fun slur => i ∈ but_last slur) slurs.

Section InferenceDefs.
Context {Pitch : Type} `{PitchOps Pitch}.

(** The value the dict comprehension of [from_stream] builds for a note. *)
Definition initial_note (m : m21_Note Pitch) : Note Pitch :=
  mkNote (m21_pitch m) (m21_offset m / of_int 4)%Qc
         (m21_quarterLength m / of_int 4)%Qc articulations.NON_LEGATO.

Definition apply_marking (m : m21_Note Pitch) (n : Note Pitch) : Note Pitch :=
  match marking_target (m21_articulations m) with
  | Some r => set_articulation r n
  | None => n
  end.

(** Every note a slur makes legato is a note of the flattened stream, so
    that the dict lookups of the slur loop succeed. *)
Definition slurs_in_stream (s : m21_Stream Pitch) : Prop :=
  Forall (fun slur =>
            Forall (fun i => (i < length (m21_notes s))%nat) (but_last slur))
         (m21_slurs s).

(** The note held for identity [i] when both loops of [from_stream] are
    done. *)
Definition inferred_note (s : m21_Stream Pitch) (i : nat) (m : m21_Note Pitch)
  : Note Pitch :=
  apply_marking m
    (if decide (slurred (m21_slurs s) i)
     then set_articulation articulations.LEGATO (initial_note m)
     else initial_note m).

End InferenceDefs.

(** Sample data for the worked instances. *)
Definition sample_tempo : Tempo := quarter_equals 120.

Definition sample_note : Note SamplePitch :=
  mkNote A4 0%Qc (Fraction 1 4) articulations.NON_LEGATO.

Definition sample_late_note : Note SamplePitch :=
  mkNote A4 (Fraction 1 2) (Fraction 1 4) articulations.STACCATO.

Definition sample_other_pitch_note : Note SamplePitch :=
  mkNote E5 (Fraction 1 4) (Fraction 1 4) articulations.NON_LEGATO.

(** Three quarter notes under one slur, the last one staccato. *)
Definition sample_slur_stream : m21_Stream SamplePitch :=
  mk_m21_Stream
    [ mk_m21_Note A4 0%Qc 1%Qc [];
      mk_m21_Note E5 1%Qc 1%Qc [];
      mk_m21_Note A4 (of_int 2) 1%Qc [Staccato] ]
    [ [0; 1; 2]%nat ]
    [].

(** One note marked tenuto then staccato, no slur. *)
Definition sample_mezzo_stream : m21_Stream SamplePitch :=
  mk_m21_Stream
    [ mk_m21_Note A4 0%Qc 1%Qc [Tenuto; Accent; Staccato] ]
    []
    [].

(** ** Code emission ([Melody.get_cpp_string])

    A Python [str] is a [String.string], a sequence of characters given
    by their codes below 256; a character beyond ASCII is outside the
    class [[A-Za-z_]] in both. *)

(** [str(z)] for an [int]: decimal digits, with a minus sign when
    negative. *)
Definition str_int (z : Z) : String.string :=
  DecimalString.NilZero.string_of_int (Z.to_int z).

(** The character class [[A-Za-z_]]. *)
Definition identifier_char (c : Ascii.ascii) : bool :=
  let n := Ascii.N_of_ascii c in
  ((65 <=? n) && (n <=? 90) || (97 <=? n) && (n <=? 122) || (n =? 95))%N.

(** [re.fullmatch(r'[A-Za-z_]+', s) is not None]: at least one character,
    all of them in the class. *)
Definition fullmatch_identifier (s : String.string) : bool :=
  match String.list_ascii_of_string s with
  | [] => false
  | cs => forallb identifier_char cs
  end.

Definition newline : String.string :=
  String.String (Ascii.ascii_of_N 10) String.EmptyString.

(** [f'  {{{mnote.frequency}, {mnote.offset_millis}, {mnote.duration_millis}}}'] *)
Definition machine_note_string (mnote : MachineNote) : String.string :=
  String.concat ""
    [ "  {"%string; str_int (frequency mnote); ", "%string;
      str_int (offset_millis mnote); ", "%string;
      str_int (duration_millis mnote); "}"%string ].

(** The f-string returned by [get_cpp_string]; [sep.join(l)] is
    [String.concat sep l]. *)
Definition cpp_definition (number_of_notes : Z) (variable_name : String.string)
    (machine_note_strings : list String.string) : String.string :=
  String.concat ""
    [ "const Melody<"%string; str_int number_of_notes; "> "%string;
      variable_name; " = {{"%string; newline;
      String.concat (String.append ","%string newline) machine_note_strings;
      newline; "}};"%string ].

Section Emission.
Context {Pitch : Type} `{PitchOps Pitch}.

(** [Melody.get_cpp_string] *)
Definition get_cpp_string (self : Melody Pitch) (variable_name : String.string)
  : result String.string :=
  if fullmatch_identifier variable_name then
    mnotes ← get_machine_notes self;
    let machine_note_strings := machine_note_string <$> mnotes in
    Ok (cpp_definition (number_of_notes self) variable_name
          machine_note_strings)
  else Raise ValueError.

End Emission.

(** ** Definitions used to state the further properties *)

Definition key_le {A} (key : A -> Qc) (x y : A) : Prop := (key x <= key y)%Qc.

(** The number of whole notes per minute of a tempo, the divisor of
    [__wholes_to_milliseconds]. *)
Definition rate (t : Tempo) : Qc :=
  (of_int (beats_per_minute t) * subdivision t)%Qc.

Definition offset_millis_le (a b : MachineNote) : Prop :=
  offset_millis a <= offset_millis b.

(** The ratios [from_stream] can give a note. *)
Definition inferable_ratios : list Qc :=
  [ Fraction 1 7; Fraction 2 7; Fraction 3 7; Fraction 5 7; Fraction 6 7;
    Fraction 1 1 ].

(** A marking whose class is not a key of the table. *)
Definition unmapped (b : m21_articulation) : Prop :=
  dict_get MUSIC21_ARTICULATION_MAPPING b = None.

Section FurtherDefs.
Context {Pitch : Type} `{PitchOps Pitch}.

(** The machine note of a note under a tempo whose rate is not 0. *)
Definition project (t : Tempo) (n : Note Pitch) : MachineNote :=
  mkMachineNote
    (round (freq440 (pitch n)))
    (spec_millis t (offset n))
    (100 + spec_millis t (articulation n * duration n)
     - round (articulation n * of_int 100)%Qc).

Definition offset_le (a b : Note Pitch) : Prop := (offset a <= offset b)%Qc.

End FurtherDefs.

(** Further sample data. *)
Definition sample_early_long_note : Note SamplePitch :=
  mkNote A4 0%Qc (Fraction 3 4) articulations.LEGATO.

(** A slurred note marked accent then tenuto, and a one-note slur on a
    note that is not in the stream. *)
Definition sample_marked_slur_stream : m21_Stream SamplePitch :=
  mk_m21_Stream
    [ mk_m21_Note A4 0%Qc 1%Qc [Accent; Tenuto];
      mk_m21_Note E5 1%Qc 1%Qc [Accent];
      mk_m21_Note A4 (of_int 2) 1%Qc [] ]
    [ [0; 1; 2]%nat ]
    [ mk_m21_MetronomeMark (of_int 2) 60 ].

Definition sample_short_slurs : list (list nat) := [ [7%nat]; [] ].

(** * Properties *)

(** ** Rounding *)

Lemma round_floor_cases (q : Qc) :
  let d := Z.pos (Qden q) in
  let fl := Qnum q / d in
  let r := Qnum q mod d in
  (round q = fl /\ 2 * r <= d /\ (2 * r = d -> fl mod 2 = 0)) \/
  (round q = fl + 1 /\ d <= 2 * r /\ (2 * r = d -> fl mod 2 <> 0)).
Proof.
  intros d fl r. unfold round. fold d. fold fl. fold r.
  destruct (Z.ltb_spec (r * 2) d); [left; lia|].
  destruct (Z.gtb_spec (r * 2) d); [right; lia|].
  destruct (Z.eqb_spec (fl mod 2) 0); [left | right]; lia.
Qed.

(** Both branches of [round_floor_cases] reduce to arithmetic on the
    quotient and the remainder. *)
Ltac round_by_cases q :=
  let Hc := fresh "Hc" in
  pose proof (round_floor_cases q) as Hc; cbv zeta in Hc;
  pose proof (Z.div_mod (Qnum q) (Z.pos (Qden q)) ltac:(lia));
  pose proof (Z.mod_pos_bound (Qnum q) (Z.pos (Qden q)) ltac:(lia));
  destruct Hc as [(-> & ? & _) | (-> & ? & _)]; nia.

Lemma round_error (q : Qc) :
  2 * Z.abs (Qnum q - round q * Z.pos (Qden q)) <= Z.pos (Qden q).
Proof.
  round_by_cases q.
Qed.

Lemma round_unique (q : Qc) (n : Z) :
  2 * Z.abs (Qnum q - n * Z.pos (Qden q)) < Z.pos (Qden q) -> round q = n.
Proof.
  intros Hn. round_by_cases q.
Qed.

Lemma round_le_int (q : Qc) (n : Z) :
  Qnum q <= n * Z.pos (Qden q) -> round q <= n.
Proof.
  intros Hn. round_by_cases q.
Qed.

Lemma round_ge_int (q : Qc) (n : Z) :
  n * Z.pos (Qden q) <= Qnum q -> n <= round q.
Proof.
  intros Hn. round_by_cases q.
Qed.

(** ** From [Qc] to [Q] *)

Lemma this_plus (x y : Qc) : (this (x + y)%Qc == this x + this y)%Q.
Proof. apply Qred_correct. Qed.
Lemma this_minus (x y : Qc) : (this (x - y)%Qc == this x - this y)%Q.
Proof.
  unfold Qcminus. rewrite this_plus. unfold Qcopp, Q2Qc, this at 2.
  rewrite Qred_correct. reflexivity.
Qed.
Lemma this_mult (x y : Qc) : (this (x * y)%Qc == this x * this y)%Q.
Proof. apply Qred_correct. Qed.
Lemma this_div (x y : Qc) : (this (x / y)%Qc == this x / this y)%Q.
Proof.
  unfold Qcdiv. rewrite this_mult. unfold Qcinv, Q2Qc, this at 2.
  rewrite Qred_correct. reflexivity.
Qed.
Lemma this_of_int (z : Z) : this (of_int z) = inject_Z z.
Proof. reflexivity. Qed.
Lemma this_Fraction (n : Z) (d : positive) : (this (Fraction n d) == n # d)%Q.
Proof. apply Qred_correct. Qed.

Lemma round_half (q : Qc) :
  (inject_Z (round q) - (1 # 2) <= q /\ q <= inject_Z (round q) + (1 # 2))%Q.
Proof.
  pose proof (round_error q) as He.
  destruct q as [[n d] Hc]; cbn [this Qnum Qden] in *.
  unfold Qle, Qminus, Qplus, Qopp, inject_Z; cbn [Qnum Qden]. split; lia.
Qed.

Lemma round_near (q : Qc) (n : Z) :
  (inject_Z n - (1 # 2) < q)%Q -> (q < inject_Z n + (1 # 2))%Q -> round q = n.
Proof.
  intros Hl Hu. apply round_unique.
  destruct q as [[m d] Hc]; cbn [this Qnum Qden] in *.
  unfold Qlt, Qminus, Qplus, Qopp, inject_Z in Hl, Hu; cbn [Qnum Qden] in Hl, Hu.
  lia.
Qed.

Lemma round_of_int (z : Z) : round (of_int z) = z.
Proof.
  apply round_near; rewrite this_of_int; lra.
Qed.

Lemma round_mono_int_r (q : Qc) (n : Z) : (q <= of_int n)%Qc -> round q <= n.
Proof.
  intros Hq. apply round_le_int.
  unfold Qcle in Hq. rewrite this_of_int in Hq.
  destruct q as [[m d] Hc]; cbn [this Qnum Qden] in *.
  unfold Qle, inject_Z in Hq; cbn [Qnum Qden] in Hq. lia.
Qed.

Lemma round_mono_int_l (q : Qc) (n : Z) : (of_int n <= q)%Qc -> n <= round q.
Proof.
  intros Hq. apply round_ge_int.
  unfold Qcle in Hq. rewrite this_of_int in Hq.
  destruct q as [[m d] Hc]; cbn [this Qnum Qden] in *.
  unfold Qle, inject_Z in Hq; cbn [Qnum Qden] in Hq. lia.
Qed.

(** ** Tempo conversion *)

Lemma truediv_Ok (a b : Qc) : b <> 0%Qc -> truediv a b = Ok (a / b)%Qc.
Proof. intros Hb. unfold truediv. destruct (decide (b = 0%Qc)); congruence. Qed.

Lemma Qc_pos_neq0 (x : Qc) : (0 < x)%Qc -> x <> 0%Qc.
Proof. intros Hx ->. exact (Qclt_not_eq _ _ Hx eq_refl). Qed.

Lemma convert_to_subdivision_Ok (t : Tempo) (s : Qc) :
  (0 < subdivision t)%Qc ->
  convert_to_subdivision t s =
    Ok (mkTempo s (round (of_int (beats_per_minute t) * s / subdivision t)%Qc)).
Proof.
  intros Hu. unfold convert_to_subdivision.
  rewrite truediv_Ok by (by apply Qc_pos_neq0). reflexivity.
Qed.

Section RoundTrip.
Variables (b : Z) (u s : Qc).
Hypothesis Hu : (0 < u)%Qc.
Hypothesis Hs : (0 < s)%Qc.

Let r1 := round (of_int b * s / u)%Qc.
Let r2 := round (of_int r1 * u / s)%Qc.

(** The error of the way out, at most 1/2, comes back multiplied by
    [u / s]; the way back adds at most 1/2. *)
Lemma round_trip_error :
  (- (u / s + 1) <= inject_Z 2 * (inject_Z r2 - inject_Z b) <= u / s + 1)%Q.
Proof.
  pose proof (round_half (of_int b * s / u)%Qc) as [H1l H1u].
  pose proof (round_half (of_int r1 * u / s)%Qc) as [H2l H2u].
  fold r1 in H1l, H1u. fold r2 in H2l, H2u.
  rewrite this_div, this_mult, this_of_int in H1l, H1u, H2l, H2u.
  unfold Qclt in Hu, Hs. change (this 0%Qc) with 0%Q in Hu, Hs.
  set (U := this u) in *. set (S := this s) in *.
  assert (Hk : (0 < U / S)%Q) by (apply Qlt_shift_div_l; lra).
  assert (Hx : (inject_Z b * S / U * (U / S) == inject_Z b)%Q)
    by (field; split; lra).
  assert (Hy : (inject_Z r1 * U / S == inject_Z r1 * (U / S))%Q)
    by (field; lra).
  rewrite Hy in H2l, H2u.
  generalize dependent (U / S)%Q. intros k.
  generalize dependent (inject_Z b * S / U)%Q. intros x1.
  intros. change (inject_Z 2) with 2%Q. split; nra.
Qed.

(** When the target subdivision is not shorter than the original one the
    error of the way out is not amplified on the way back. *)
Lemma round_trip_exact : (u <= s)%Qc -> r2 = b.
Proof.
  intros Hle.
  pose proof (round_half (of_int b * s / u)%Qc) as [H1l H1u].
  fold r1 in H1l, H1u.
  unfold r2. apply round_near.
  all: rewrite this_div, this_mult, this_of_int in *.
  all: unfold Qclt, Qcle in *; change (this 0%Qc) with 0%Q in *.
  all: set (U := this u) in *; set (S := this s) in *.
  all: assert (Hk : (0 < U / S)%Q) by (apply Qlt_shift_div_l; lra).
  all: assert (Hk1 : (U / S <= 1)%Q) by (apply Qle_shift_div_r; lra).
  all: assert (Hx : (inject_Z b * S / U * (U / S) == inject_Z b)%Q)
         by (field; split; lra).
  all: assert (Hy : (inject_Z r1 * U / S == inject_Z r1 * (U / S))%Q)
         by (field; lra).
  all: rewrite Hy.
  all: destruct (Qlt_le_dec (U / S) 1) as [Hlt | Hge].
  all: try (generalize dependent (U / S)%Q; intros k;
            generalize dependent (inject_Z b * S / U)%Q; intros x1; intros; nra).
  all: assert (Hk' : (U / S == 1)%Q) by lra.
  all: rewrite Hk' in Hx |- *.
  all: assert (Hr1 : r1 = b)
         by (apply round_near; rewrite this_div, this_mult, this_of_int;
             fold U S; lra).
  all: rewrite Hr1; lra.
Qed.
End RoundTrip.

(** C9 (amended): for a tempo with positive subdivision and every positive
    subdivision [s], converting to [s] and back succeeds and restores the
    subdivision; the restored rate differs from the original one by at
    most [(subdivision / s + 1) / 2], hence by at most 1 whenever
    [subdivision < 3 * s], and it is the original rate whenever
    [subdivision <= s]. *)
Theorem convert_round_trip (t : Tempo) (s : Qc) :
  (0 < subdivision t)%Qc -> (0 < s)%Qc ->
  exists t1 t2,
    convert_to_subdivision t s = Ok t1 /\
    convert_to_subdivision t1 (subdivision t) = Ok t2 /\
    subdivision t2 = subdivision t /\
    (of_int 2 * of_int (Z.abs (beats_per_minute t2 - beats_per_minute t))
       <= subdivision t / s + 1)%Qc /\
    ((subdivision t < of_int 3 * s)%Qc ->
       Z.abs (beats_per_minute t2 - beats_per_minute t) <= 1) /\
    ((subdivision t <= s)%Qc -> beats_per_minute t2 = beats_per_minute t).
Proof.
  intros Hu Hs. destruct t as [u b]; cbn [subdivision beats_per_minute] in *.
  eexists _, _. split; [by apply convert_to_subdivision_Ok|].
  split; [by apply convert_to_subdivision_Ok|].
  cbn [subdivision beats_per_minute].
  pose proof (round_trip_error b u s Hu Hs) as Herr. cbv zeta in Herr.
  set (r2 := round _) in *.
  split; [reflexivity|].
  assert (Hbound : (of_int 2 * of_int (Z.abs (r2 - b)) <= u / s + 1)%Qc).
  { unfold Qcle. rewrite this_mult, this_plus, this_div, !this_of_int.
    change (this 1%Qc) with 1%Q.
    rewrite <- inject_Z_mult.
    destruct (Z.abs_spec (r2 - b)) as [[_ ->] | [_ ->]].
    - replace (2 * (r2 - b)) with (2 * r2 - 2 * b) by lia.
      unfold Z.sub. rewrite inject_Z_plus, inject_Z_opp, !inject_Z_mult.
      unfold Z.sub in Herr. lra.
    - replace (2 * - (r2 - b)) with (2 * b - 2 * r2) by lia.
      unfold Z.sub. rewrite inject_Z_plus, inject_Z_opp, !inject_Z_mult.
      lra. }
  split; [exact Hbound|]. split.
  - intros H3.
    destruct (Z_le_gt_dec (Z.abs (r2 - b)) 1) as [|Hgt]; [done|exfalso].
    unfold Qcle, Qclt in *.
    rewrite this_mult, this_plus, this_div, !this_of_int in Hbound.
    rewrite this_mult, this_of_int in H3.
    change (this 1%Qc) with 1%Q in *. change (this 0%Qc) with 0%Q in *.
    assert (H2 : (inject_Z 2 <= inject_Z (Z.abs (r2 - b)))%Q)
      by (rewrite <- Zle_Qle; lia).
    assert (Hk : (this u / this s < 3)%Q).
    { apply Qlt_shift_div_r; [lra|].
      change (inject_Z 3) with 3%Q in H3. lra. }
    change (inject_Z 2) with 2%Q in *. nra.
  - intros Hle. exact (round_trip_exact b u s Hu Hs Hle).
Qed.

(** ** Machine-note projection *)

Section Projection.
Context {Pitch : Type} `{PitchOps Pitch}.

Lemma of_int_pos (z : Z) : 0 < z -> (0 < of_int z)%Qc.
Proof.
  intros Hz. unfold Qclt. rewrite this_of_int. change (this 0%Qc) with (inject_Z 0).
  by rewrite <- Zlt_Qlt.
Qed.

Lemma rate_pos (t : Tempo) :
  valid_tempo t -> (0 < of_int (beats_per_minute t) * subdivision t)%Qc.
Proof.
  intros [Hs Hb]. apply of_int_pos in Hb.
  unfold Qclt in *. rewrite this_mult. change (this 0%Qc) with 0%Q in *. nra.
Qed.

Lemma wholes_to_milliseconds_Ok (t : Tempo) (d : Qc) :
  valid_tempo t -> wholes_to_milliseconds t d = Ok (spec_millis t d).
Proof.
  intros Ht. unfold wholes_to_milliseconds.
  rewrite truediv_Ok by (apply Qc_pos_neq0, rate_pos, Ht). reflexivity.
Qed.

Lemma spec_millis_nonneg (t : Tempo) (d : Qc) :
  valid_tempo t -> (0 <= d)%Qc -> 0 <= spec_millis t d.
Proof.
  intros Ht Hd. apply round_mono_int_l.
  pose proof (rate_pos t Ht) as Hr.
  unfold Qcle, Qclt in *. rewrite this_mult, this_div, !this_of_int.
  change (this 0%Qc) with 0%Q in *. change (inject_Z 0) with 0%Q.
  change (inject_Z 60000) with 60000%Q.
  set (r := this (of_int (beats_per_minute t) * subdivision t)%Qc) in *.
  assert (0 <= this d / r)%Q by (apply Qle_shift_div_l; lra).
  lra.
Qed.

Lemma round_percent_le (a : Qc) :
  (a <= 1)%Qc -> round (a * of_int 100)%Qc <= 100.
Proof.
  intros Ha. apply round_mono_int_r.
  unfold Qcle in *. rewrite this_mult, !this_of_int.
  change (this 1%Qc) with 1%Q in *. change (inject_Z 100) with 100%Q. lra.
Qed.

Lemma round_percent_legato : round (1 * of_int 100)%Qc = 100.
Proof. reflexivity. Qed.

Lemma note_to_machine_note_Ok (t : Tempo) (n : Note Pitch) :
  valid_tempo t ->
  note_to_machine_note t n =
    Ok (mkMachineNote
          (round (freq440 (pitch n)))
          (spec_millis t (offset n))
          (100 + spec_millis t (articulation n * duration n)
           - round (articulation n * of_int 100)%Qc)).
Proof.
  intros Ht. unfold note_to_machine_note.
  rewrite !wholes_to_milliseconds_Ok by done. reflexivity.
Qed.

(** C1: under a tempo with positive subdivision and positive rate, the
    projection of a note succeeds with frequency [round(freq440)], offset
    [round(offset / (bpm * subdivision) * 60000)] and duration
    [100 + round(articulation * duration / (bpm * subdivision) * 60000)
     - round(articulation * 100)], all computed on exact rationals and
    rounded once each; for a legato note (articulation 1) the duration is
    the plain millisecond conversion of the written duration. *)
Theorem note_to_machine_note_spec (t : Tempo) (n : Note Pitch) :
  (0 < subdivision t)%Qc -> 0 < beats_per_minute t ->
  note_to_machine_note t n =
    Ok (mkMachineNote
          (round (freq440 (pitch n)))
          (spec_millis t (offset n))
          (100 + spec_millis t (articulation n * duration n)
           - round (articulation n * of_int 100)%Qc))
  /\ (articulation n = 1%Qc ->
      exists m, note_to_machine_note t n = Ok m
                /\ duration_millis m = spec_millis t (duration n)).
Proof.
  intros Hs Hb. assert (Ht : valid_tempo t) by done.
  pose proof (note_to_machine_note_Ok t n Ht) as Hp.
  split; [exact Hp|].
  intros Ha. eexists; split; [exact Hp|]. cbn [duration_millis].
  rewrite Ha, Qcmult_1_l, round_percent_legato. lia.
Qed.

(** C10: under a tempo with positive subdivision and positive rate, a
    note with positive duration and articulation in (0, 1] projects to a
    non-negative [duration_millis]: the conversion of the sounding
    duration is non-negative and [round(articulation * 100)] is at most
    100.  The value 0 is reached: a legato note whose sounding duration
    rounds to 0 ms projects to duration 0. *)
Theorem duration_millis_nonneg :
  (forall (t : Tempo) (n : Note Pitch),
      (0 < subdivision t)%Qc -> 0 < beats_per_minute t ->
      (0 < duration n)%Qc ->
      (0 < articulation n)%Qc -> (articulation n <= 1)%Qc ->
      0 <= spec_millis t (articulation n * duration n) /\
      round (articulation n * of_int 100)%Qc <= 100 /\
      exists m, note_to_machine_note t n = Ok m /\ 0 <= duration_millis m)
  /\ (forall p : Pitch,
        exists (t : Tempo) (n : Note Pitch) m,
          pitch n = p /\ articulation n = 1%Qc /\
          (0 < subdivision t)%Qc /\ 0 < beats_per_minute t /\
          (0 < duration n)%Qc /\
          note_to_machine_note t n = Ok m /\ duration_millis m = 0).
Proof.
  split.
  - intros t n Hs Hb Hd Ha0 Ha1. assert (Ht : valid_tempo t) by done.
    pose proof (round_percent_le _ Ha1) as Hr.
    assert (Hw : 0 <= spec_millis t (articulation n * duration n)).
    { apply spec_millis_nonneg; [done|].
      unfold Qcle, Qclt in *. rewrite this_mult.
      change (this 0%Qc) with 0%Q in *. nra. }
    split; [exact Hw|]. split; [exact Hr|].
    rewrite (note_to_machine_note_Ok t n Ht).
    eexists; split; [reflexivity|]. cbn [duration_millis]. lia.
  - intros p.
    exists (quarter_equals 120), (mkNote p 0%Qc (Fraction 1 1000000) 1%Qc).
    eexists. do 5 (split; [done|]).
    rewrite note_to_machine_note_Ok by done. split; [reflexivity|].
    vm_compute. reflexivity.
Qed.
(** C2 (amended): the single note of pitch frequency 440.0 Hz, offset 0,
    duration 1/4 and default articulation 5/7 under quarter = 120 projects
    to frequency 440, offset 0 ms and duration
    100 + round(357.14...) - round(71.43...) = 100 + 357 - 71 = 386 ms,
    directly and through a one-note melody. *)
Theorem single_note_projection (p : Pitch) :
  freq440 p = Fraction 440 1 ->
  let n := mkNote p 0%Qc (Fraction 1 4) articulations.NON_LEGATO in
  Note_init p 0%Qc (Fraction 1 4) articulations.NON_LEGATO = Ok n /\
  spec_millis (quarter_equals 120) (articulation n * duration n) = 357 /\
  round (articulation n * of_int 100)%Qc = 71 /\
  note_to_machine_note (quarter_equals 120) n = Ok (mkMachineNote 440 0 386) /\
  (mel ← Melody_init_default [n]; get_machine_notes mel)
  = Ok [mkMachineNote 440 0 386].
Proof.
  intros Hf n. split; [reflexivity|].
  split; [vm_compute; reflexivity|]. split; [vm_compute; reflexivity|].
  assert (Hn : note_to_machine_note (quarter_equals 120) n
               = Ok (mkMachineNote 440 0 386)).
  { rewrite note_to_machine_note_Ok by done. subst n. cbn [pitch].
    rewrite Hf. vm_compute. reflexivity. }
  split; [exact Hn|].
  cbn [Melody_init_default Melody_init mbind result_bind sorted foldr insert
       get_machine_notes notes tempo comprehension].
  rewrite Hn. reflexivity.
Qed.

End Projection.

(** ** Ties *)

Lemma min_is_min (x y : Qc) : is_min x y (min x y).
Proof.
  unfold is_min, min. destruct (decide (y < x)%Qc) as [Hlt | Hge].
  - split; [by right|]. split; [by apply Qclt_le_weak | apply Qcle_refl].
  - split; [by left|]. split; [apply Qcle_refl | by apply Qcnot_lt_le].
Qed.

Lemma max_is_max (x y : Qc) : is_max x y (max x y).
Proof.
  unfold is_max, max. destruct (decide (x < y)%Qc) as [Hlt | Hge].
  - split; [by right|]. split; [by apply Qclt_le_weak | apply Qcle_refl].
  - split; [by left|]. split; [apply Qcle_refl | by apply Qcnot_lt_le].
Qed.

Lemma is_min_unique (x y m m' : Qc) : is_min x y m -> is_min x y m' -> m = m'.
Proof.
  intros ([-> | ->] & Hx & Hy) ([-> | ->] & Hx' & Hy'); try done;
    by apply Qcle_antisym.
Qed.

Lemma is_max_unique (x y m m' : Qc) : is_max x y m -> is_max x y m' -> m = m'.
Proof.
  intros ([-> | ->] & Hx & Hy) ([-> | ->] & Hx' & Hy'); try done;
    by apply Qcle_antisym.
Qed.

Lemma min_comm (x y : Qc) : min x y = min y x.
Proof.
  apply (is_min_unique x y); [apply min_is_min|].
  destruct (min_is_min y x) as (Ho & ? & ?). split; [tauto | done].
Qed.

Lemma max_comm (x y : Qc) : max x y = max y x.
Proof.
  apply (is_max_unique x y); [apply max_is_max|].
  destruct (max_is_max y x) as (Ho & ? & ?). split; [tauto | done].
Qed.

Lemma max_minus (x y c : Qc) : max (x - c)%Qc (y - c)%Qc = (max x y - c)%Qc.
Proof.
  unfold max.
  destruct (decide (x - c < y - c)%Qc) as [H1 | H1];
    destruct (decide (x < y)%Qc) as [H2 | H2]; try done; exfalso.
  - by apply H2, (Qcplus_lt_mono_r x y (- c)%Qc).
  - by apply H1, (Qcplus_lt_mono_r x y (- c)%Qc).
Qed.

Section Tie.
Context {Pitch : Type} `{PitchOps Pitch}.

(** C4 (amended): constructing a Note never fails and checks nothing: the
    note holds the given pitch, offset, duration and articulation as they
    are, so it has a positive duration and an articulation in (0, 1]
    exactly when the arguments have. *)
Theorem Note_init_unchecked (p : Pitch) (o d a : Qc) :
  exists n,
    Note_init p o d a = Ok n /\
    pitch n = p /\ offset n = o /\ duration n = d /\ articulation n = a /\
    ((0 < duration n)%Qc /\ (0 < articulation n)%Qc /\ (articulation n <= 1)%Qc
     <-> (0 < d)%Qc /\ (0 < a)%Qc /\ (a <= 1)%Qc).
Proof. eexists. split; [reflexivity|]. by cbn. Qed.

Lemma tie_with_Ok (a b : Note Pitch) :
  pitch a = pitch b ->
  tie_with a b =
    Ok (mkNote (pitch a) (min (offset a) (offset b))
          (max (end_offset a) (end_offset b) - min (offset a) (offset b))%Qc
          (articulation b)).
Proof.
  intros Hp. unfold tie_with. destruct (decide (pitch a <> pitch b)); [done|].
  unfold Note_init. by rewrite max_minus.
Qed.

(** C5: for two notes of equal pitch, [tie_with] returns a note of that
    pitch whose offset is the smaller of the two offsets, whose duration
    is the larger of the two end offsets minus that offset, and whose
    articulation is that of the second note; for two notes of different
    pitch it raises [ValueError]. *)
Theorem tie_with_spec (a b : Note Pitch) :
  (pitch a = pitch b ->
   exists r lo hi,
     tie_with a b = Ok r /\
     is_min (offset a) (offset b) lo /\
     is_max (end_offset a) (end_offset b) hi /\
     pitch r = pitch a /\
     offset r = lo /\
     duration r = (hi - lo)%Qc /\
     articulation r = articulation b)
  /\ (pitch a <> pitch b -> tie_with a b = Raise ValueError).
Proof.
  split.
  - intros Hp. eexists _, _, _. split; [by apply tie_with_Ok|].
    split; [apply min_is_min|]. split; [apply max_is_max|]. done.
  - intros Hp. unfold tie_with. by destruct (decide (pitch a <> pitch b)).
Qed.

(** C6: for two notes of equal pitch, tying in either order succeeds with
    the same offset and the same duration; the merged interval covers both
    written intervals, and with them any gap between them; the
    articulation is the second operand's in each order, so the two results
    differ whenever the two articulations differ. *)
Theorem tie_with_comm_interval (a b : Note Pitch) :
  pitch a = pitch b ->
  exists r r',
    tie_with a b = Ok r /\ tie_with b a = Ok r' /\
    offset r = offset r' /\ duration r = duration r' /\
    (offset r <= offset a)%Qc /\ (offset r <= offset b)%Qc /\
    (end_offset a <= end_offset r)%Qc /\ (end_offset b <= end_offset r)%Qc /\
    articulation r = articulation b /\ articulation r' = articulation a /\
    (articulation a <> articulation b -> r <> r').
Proof.
  intros Hp. eexists _, _. split; [by apply tie_with_Ok|].
  split; [by apply tie_with_Ok|].
  cbn [offset duration articulation].
  rewrite (min_comm (offset b)), (max_comm (end_offset b)).
  destruct (min_is_min (offset a) (offset b)) as (_ & ? & ?).
  destruct (max_is_max (end_offset a) (end_offset b)) as (_ & ? & ?).
  assert (Hend : forall p ar,
    end_offset (mkNote (p : Pitch) (min (offset a) (offset b))
      (max (end_offset a) (end_offset b) - min (offset a) (offset b))%Qc ar)
    = max (end_offset a) (end_offset b)).
  { intros p ar. unfold end_offset at 1. cbn [offset duration]. ring. }
  rewrite !Hend. repeat split; try done.
  intros Hne Heq. apply Hne. by injection Heq.
Qed.
End Tie.

(** ** Articulation inference *)

Section Inference.
Context {Pitch : Type} `{PitchOps Pitch}.
Local Open Scope nat_scope.

Lemma comprehension_total {A B} (f : A -> result B) (g : A -> B) (l : list A) :
  (forall x, f x = Ok (g x)) -> comprehension f l = Ok (g <$> l).
Proof.
  intros Hf. induction l as [|x l IH]; [done|].
  cbn [comprehension]. rewrite Hf, IH. done.
Qed.

Lemma initial_notes_Ok (fl : list (m21_Note Pitch)) :
  initial_notes fl = Ok (initial_note <$> fl).
Proof. by apply comprehension_total. Qed.

Lemma assign_articulation_Ok (a : Qc) (arena : list (Note Pitch)) (k : nat) :
  k < length arena ->
  exists arena',
    assign_articulation a arena k = Ok arena' /\
    length arena' = length arena /\
    arena' !! k = set_articulation a <$> arena !! k /\
    (forall i, i <> k -> arena' !! i = arena !! i).
Proof.
  intros Hk. unfold assign_articulation.
  destruct (lookup_lt_is_Some_2 arena k Hk) as [n Hn]. rewrite Hn.
  eexists. split; [done|]. split; [by rewrite length_insert|]. split.
  - by rewrite list_lookup_insert_eq.
  - intros i Hi. by rewrite list_lookup_insert_ne.
Qed.

Lemma legato_loop (a : Qc) (ks : list nat) (arena : list (Note Pitch)) :
  (forall k, k ∈ ks -> k < length arena) ->
  exists arena',
    for_each (assign_articulation a) ks arena = Ok arena' /\
    length arena' = length arena /\
    (forall i, i ∈ ks -> arena' !! i = set_articulation a <$> arena !! i) /\
    (forall i, i ∉ ks -> arena' !! i = arena !! i).
Proof.
  revert arena. induction ks as [|k ks IH]; intros arena Hks.
  - exists arena. split; [done|]. split; [done|]. split; [|done].
    intros i Hi. by apply elem_of_nil in Hi.
  - destruct (assign_articulation_Ok a arena k) as (arena1 & Hs & Hl & Hk & Hne).
    { apply Hks. left. }
    destruct (IH arena1) as (arena' & Hf & Hl' & Hin & Hout).
    { intros k' Hk'. rewrite Hl. apply Hks. by right. }
    exists arena'. cbn [for_each]. rewrite Hs. split; [exact Hf|].
    split; [congruence|]. split.
    + intros i Hi. destruct (decide (i ∈ ks)) as [Hi' | Hi'].
      * rewrite (Hin i Hi'). destruct (decide (i = k)) as [-> | Hik].
        -- rewrite Hk. by destruct (arena !! k).
        -- by rewrite (Hne i Hik).
      * rewrite (Hout i Hi').
        apply elem_of_cons in Hi as [-> | Hi]; [exact Hk | done].
    + intros i Hi. apply not_elem_of_cons in Hi as [Hik Hi].
      by rewrite (Hout i Hi), (Hne i Hik).
Qed.

Lemma slur_loop (slurs : list (list nat)) (arena : list (Note Pitch)) :
  (forall slur k, slur ∈ slurs -> k ∈ but_last slur -> k < length arena) ->
  exists arena',
    slur_pass slurs arena = Ok arena' /\
    length arena' = length arena /\
    (forall i, slurred slurs i ->
               arena' !! i = set_articulation articulations.LEGATO <$> arena !! i) /\
    (forall i, ~ slurred slurs i -> arena' !! i = arena !! i).
Proof.
  unfold slur_pass, slurred.
  revert arena. induction slurs as [|sl slurs IH]; intros arena Hks.
  - exists arena. split; [done|]. split; [done|]. split; [|done].
    intros i Hi. by apply Exists_nil in Hi.
  - destruct (legato_loop articulations.LEGATO (but_last sl) arena)
      as (arena1 & Hs & Hl & Hin1 & Hout1).
    { intros k. apply Hks. left. }
    destruct (IH arena1) as (arena' & Hf & Hl' & Hin & Hout).
    { intros sl' k Hsl'. rewrite Hl. apply Hks. by right. }
    exists arena'. cbn [for_each]. rewrite Hs. split; [exact Hf|].
    split; [congruence|]. split.
    + intros i Hi.
      destruct (decide (Exists (fun slur => i ∈ but_last slur) slurs))
        as [Hi' | Hi'].
      * rewrite (Hin i Hi'). destruct (decide (i ∈ but_last sl)) as [Hik | Hik].
        -- rewrite (Hin1 i Hik). by destruct (arena !! i).
        -- by rewrite (Hout1 i Hik).
      * rewrite (Hout i Hi').
        apply Exists_cons in Hi as [Hi | Hi]; [by apply Hin1 | done].
    + intros i Hi. rewrite Exists_cons in Hi.
      rewrite (Hout i), (Hout1 i); tauto.
Qed.
Lemma first_mapped_in_table (arts : list m21_articulation)
    (a : m21_articulation) :
  first_mapped arts = Some a ->
  is_Some (dict_get MUSIC21_ARTICULATION_MAPPING a).
Proof.
  intros Hf. apply find_some in Hf as [_ Hd]. by apply bool_decide_eq_true in Hd.
Qed.

Lemma marking_step_target (arena : list (Note Pitch)) (k : nat)
    (m : m21_Note Pitch) :
  marking_step arena (k, m) =
    match marking_target (m21_articulations m) with
    | Some r => assign_articulation r arena k
    | None => Ok arena
    end.
Proof.
  unfold marking_step, marking_target.
  destruct (m21_articulations m) as [|a0 arts] eqn:Ha; [done|].
  destruct (any_of_type Staccato (a0 :: arts) && any_of_type Tenuto (a0 :: arts));
    [done|].
  destruct (first_mapped (a0 :: arts)) as [a|] eqn:Hf; [|done].
  cbn [mbind option_bind].
  destruct (first_mapped_in_table _ _ Hf) as [r ->]. done.
Qed.

Lemma marking_loop (items : list (nat * m21_Note Pitch))
    (arena : list (Note Pitch)) :
  NoDup items.*1 ->
  (forall k m, (k, m) ∈ items -> k < length arena) ->
  exists arena',
    for_each marking_step items arena = Ok arena' /\
    length arena' = length arena /\
    (forall k m, (k, m) ∈ items -> arena' !! k = apply_marking m <$> arena !! k) /\
    (forall i, i ∉ items.*1 -> arena' !! i = arena !! i).
Proof.
  revert arena. induction items as [|[k m] items IH]; intros arena Hnd Hks.
  - exists arena. split; [done|]. split; [done|]. split; [|done].
    intros k m Hi. by apply elem_of_nil in Hi.
  - rewrite fmap_cons in Hnd. apply list.NoDup_cons in Hnd as [Hk Hnd]. cbn [fst] in Hk.
    assert (Hstep : exists arena1,
               marking_step arena (k, m) = Ok arena1 /\
               length arena1 = length arena /\
               arena1 !! k = apply_marking m <$> arena !! k /\
               (forall i, i <> k -> arena1 !! i = arena !! i)).
    { rewrite marking_step_target. unfold apply_marking.
      destruct (marking_target (m21_articulations m)) as [r|].
      - apply assign_articulation_Ok, (Hks k m). left.
      - exists arena. split; [done|]. split; [done|]. split; [|done].
        by destruct (arena !! k). }
    destruct Hstep as (arena1 & Hs & Hl & Hk1 & Hne).
    destruct (IH arena1 Hnd) as (arena' & Hf & Hl' & Hin & Hout).
    { intros k' m' Hk'. rewrite Hl. apply (Hks k' m'). by right. }
    exists arena'. cbn [for_each]. rewrite Hs. split; [exact Hf|].
    split; [congruence|]. split.
    + intros k' m' Hi. apply elem_of_cons in Hi as [Heq | Hi].
      * injection Heq as -> ->. by rewrite (Hout k Hk).
      * rewrite (Hin k' m' Hi). rewrite Hne; [done|].
        intros ->. apply Hk. apply list_elem_of_fmap. by exists (k, m').
    + intros i Hi. rewrite fmap_cons in Hi.
      apply not_elem_of_cons in Hi as [Hik Hi]. cbn [fst] in Hik.
      by rewrite (Hout i Hi), (Hne i Hik).
Qed.

Lemma imap_pair_keys {A} (l : list A) : (imap pair l).*1 = seq 0 (length l).
Proof.
  rewrite fmap_imap. rewrite <- (list_fmap_id (seq 0 (length l))).
  rewrite <- (imap_seq l id 0). by apply imap_ext.
Qed.

Lemma elem_of_imap_pair {A} (l : list A) (k : nat) (x : A) :
  (k, x) ∈ imap pair l <-> l !! k = Some x.
Proof.
  rewrite elem_of_lookup_imap. split.
  - intros (i & y & Heq & Hl). by injection Heq as -> ->.
  - intros Hl. by exists k, x.
Qed.

Lemma from_stream_notes_Ok (s : m21_Stream Pitch) :
  slurs_in_stream s ->
  exists arena,
    from_stream_notes s = Ok arena /\
    length arena = length (m21_notes s) /\
    forall i m, m21_notes s !! i = Some m ->
                arena !! i = Some (inferred_note s i m).
Proof.
  intros Hwf. unfold from_stream_notes. rewrite initial_notes_Ok.
  cbn [mbind result_bind].
  destruct (slur_loop (m21_slurs s) (initial_note <$> m21_notes s))
    as (arena1 & Hs & Hl1 & Hin1 & Hout1).
  { intros sl k Hsl Hk. rewrite length_fmap.
    unfold slurs_in_stream in Hwf. rewrite list.Forall_forall in Hwf.
    specialize (Hwf sl Hsl). rewrite list.Forall_forall in Hwf. by apply Hwf. }
  rewrite Hs. cbn [mbind result_bind].
  destruct (marking_loop (imap pair (m21_notes s)) arena1)
    as (arena2 & Hm & Hl2 & Hin2 & _).
  { rewrite imap_pair_keys. apply NoDup_seq. }
  { intros k m Hk. apply elem_of_imap_pair in Hk.
    rewrite Hl1, length_fmap. by apply lookup_lt_Some in Hk. }
  exists arena2. split; [exact Hm|]. split.
  { by rewrite Hl2, Hl1, length_fmap. }
  intros i m Hi. rewrite (Hin2 i m) by by apply elem_of_imap_pair.
  unfold inferred_note.
  destruct (decide (slurred (m21_slurs s) i)) as [Hsl | Hsl].
  - rewrite (Hin1 i Hsl), list_lookup_fmap, Hi. done.
  - rewrite (Hout1 i Hsl), list_lookup_fmap, Hi. done.
Qed.
Lemma insert_Permutation {A} (key : A -> Qc) (x : A) (l : list A) :
  insert key x l ≡ₚ x :: l.
Proof.
  induction l as [|y l IH]; [done|]. cbn [insert].
  destruct (decide (key y < key x)%Qc); [|done].
  rewrite IH. apply Permutation_swap.
Qed.

Lemma sorted_Permutation {A} (key : A -> Qc) (l : list A) : sorted key l ≡ₚ l.
Proof.
  unfold sorted. induction l as [|x l IH]; [done|].
  cbn [foldr]. by rewrite insert_Permutation, IH.
Qed.

Lemma from_stream_Ok (s : m21_Stream Pitch) (arena : list (Note Pitch)) :
  from_stream_notes s = Ok arena ->
  exists mel, from_stream s = Ok mel /\ notes mel ≡ₚ arena.
Proof.
  intros Ha. unfold from_stream. rewrite Ha. cbn [mbind result_bind].
  unfold Melody_init. eexists. split; [done|]. apply sorted_Permutation.
Qed.





Lemma inferred_marked (s : m21_Stream Pitch) (i : nat) (m : m21_Note Pitch)
    (r : Qc) :
  marking_target (m21_articulations m) = Some r ->
  articulation (inferred_note s i m) = r.
Proof. intros Hr. unfold inferred_note, apply_marking. by rewrite Hr. Qed.

Lemma inferred_unmarked (s : m21_Stream Pitch) (i : nat) (m : m21_Note Pitch) :
  m21_articulations m = [] ->
  articulation (inferred_note s i m) =
    if decide (slurred (m21_slurs s) i) then articulations.LEGATO
    else articulations.NON_LEGATO.
Proof.
  intros Hr. unfold inferred_note, apply_marking. rewrite Hr. cbn.
  by destruct (decide _).
Qed.

Lemma any_of_type_elem (c : m21_articulation) (arts : list m21_articulation) :
  c ∈ arts -> any_of_type c arts = true.
Proof.
  intros Hc. unfold any_of_type. apply existsb_exists. exists c.
  split; [by apply list_elem_of_In | by apply bool_decide_eq_true].
Qed.

Lemma marking_target_both (arts : list m21_articulation) :
  Staccato ∈ arts -> Tenuto ∈ arts ->
  marking_target arts = Some articulations.MEZZO_STACCATO.
Proof.
  intros Hs Ht. unfold marking_target.
  by rewrite (any_of_type_elem _ _ Hs), (any_of_type_elem _ _ Ht).
Qed.

Lemma marking_target_single (a : m21_articulation) (r : Qc) :
  dict_get MUSIC21_ARTICULATION_MAPPING a = Some r ->
  marking_target [a] = Some r.
Proof.
  intros Hr. unfold marking_target.
  assert (any_of_type Staccato [a] && any_of_type Tenuto [a] = false) as ->.
  { unfold any_of_type. cbn [existsb]. rewrite !orb_false_r.
    destruct (decide (a = Staccato)) as [-> | Hne]; [done|].
    by rewrite (bool_decide_eq_false_2 _ Hne). }
  unfold first_mapped. cbn [find].
  rewrite bool_decide_eq_true_2 by (by rewrite Hr). done.
Qed.

(** C7: when the slurs only span notes of the stream, [from_stream]
    succeeds and its notes are those of the dict, reordered; every note
    that is in a slur at a place other than the last and carries no
    marking ends legato; the last note of a slur ends with the ratio of
    its own marking when it carries one marking of the table, and with the
    default when it carries none and no slur makes it legato. *)
Theorem slur_inference (s : m21_Stream Pitch) :
  slurs_in_stream s ->
  exists arena mel,
    from_stream_notes s = Ok arena /\
    from_stream s = Ok mel /\
    notes mel ≡ₚ arena /\
    (forall slur i m,
        slur ∈ m21_slurs s -> i ∈ but_last slur ->
        m21_notes s !! i = Some m -> m21_articulations m = [] ->
        articulation <$> arena !! i = Some articulations.LEGATO) /\
    (forall slur i m a r,
        slur ∈ m21_slurs s -> list.last slur = Some i ->
        m21_notes s !! i = Some m -> m21_articulations m = [a] ->
        dict_get MUSIC21_ARTICULATION_MAPPING a = Some r ->
        articulation <$> arena !! i = Some r) /\
    (forall slur i m,
        slur ∈ m21_slurs s -> list.last slur = Some i ->
        m21_notes s !! i = Some m -> m21_articulations m = [] ->
        ~ slurred (m21_slurs s) i ->
        articulation <$> arena !! i = Some articulations.NON_LEGATO).
Proof.
  intros Hwf.
  destruct (from_stream_notes_Ok s Hwf) as (arena & Ha & _ & Hnotes).
  destruct (from_stream_Ok s arena Ha) as (mel & Hm & Hp).
  exists arena, mel. do 3 (split; [done|]). split; [|split].
  - intros slur i m Hsl Hi Hm' Harts.
    rewrite (Hnotes i m Hm'). cbn. rewrite (inferred_unmarked s i m Harts).
    rewrite decide_True; [done|].
    apply list.Exists_exists. by exists slur.
  - intros slur i m a r _ _ Hm' Harts Hr.
    rewrite (Hnotes i m Hm'). cbn. f_equal. apply inferred_marked.
    rewrite Harts. by apply marking_target_single.
  - intros slur i m _ _ Hm' Harts Hns.
    rewrite (Hnotes i m Hm'). cbn. rewrite (inferred_unmarked s i m Harts).
    by rewrite decide_False.
Qed.

(** C8: when the slurs only span notes of the stream, [from_stream]
    succeeds, and every note whose markings include both a [Staccato] and
    a [Tenuto] ends with ratio 3/7, which is neither 2/7 nor 6/7, wherever
    the two markings stand among the others and whatever the slurs. *)
Theorem staccato_tenuto_resolution (s : m21_Stream Pitch) :
  slurs_in_stream s ->
  exists arena mel,
    from_stream_notes s = Ok arena /\
    from_stream s = Ok mel /\
    notes mel ≡ₚ arena /\
    forall i m,
      m21_notes s !! i = Some m ->
      Staccato ∈ m21_articulations m -> Tenuto ∈ m21_articulations m ->
      exists n, arena !! i = Some n /\
                articulation n = Fraction 3 7 /\
                articulation n <> Fraction 2 7 /\
                articulation n <> Fraction 6 7.
Proof.
  intros Hwf.
  destruct (from_stream_notes_Ok s Hwf) as (arena & Ha & _ & Hnotes).
  destruct (from_stream_Ok s arena Ha) as (mel & Hm & Hp).
  exists arena, mel. do 3 (split; [done|]).
  intros i m Hm' Hs Ht. eexists. split; [by apply Hnotes|].
  rewrite (inferred_marked s i m _ (marking_target_both _ Hs Ht)).
  done.
Qed.

(** C3 (amended): constructing a Melody from an empty note sequence
    succeeds and gives a Melody with zero notes, directly and through
    [from_stream] on a stream without notes; reading the duration or the
    actual duration of that Melody raises [IndexError]; on a non-empty
    sequence the duration is defined. *)
Theorem empty_melody_construction (t : Tempo) :
  (exists mel : Melody Pitch,
      Melody_init [] t = Ok mel /\ number_of_notes mel = 0%Z /\
      Melody_duration mel = Raise IndexError /\
      get_actual_duration mel = Raise IndexError) /\
  (exists mel : Melody Pitch,
      from_stream (mk_m21_Stream [] [] []) = Ok mel /\
      number_of_notes mel = 0%Z) /\
  (forall ns : list (Note Pitch),
      ns <> [] ->
      exists mel d, Melody_init ns t = Ok mel /\ Melody_duration mel = Ok d).
Proof.
  split; [|split].
  - eexists. split; [reflexivity|]. done.
  - eexists. split; [reflexivity|]. done.
  - intros ns Hns. unfold Melody_init, Melody_duration. cbn [notes].
    destruct (list.last (sorted offset ns)) as [n|] eqn:Hl.
    + eexists _, _. split; [reflexivity|].
      unfold last_item. cbn [notes]. rewrite Hl. reflexivity.
    + apply last_None in Hl. exfalso. apply Hns.
      apply Permutation_nil. rewrite <- Hl. apply sorted_Permutation.
Qed.
End Inference.

(** * Worked instances *)

(** The projection formula at the sample quarter note. *)
Lemma note_to_machine_note_spec_witness :
  (0 < subdivision sample_tempo)%Qc /\ 0 < beats_per_minute sample_tempo /\
  note_to_machine_note sample_tempo sample_note
  = Ok (mkMachineNote
          (round (freq440 (pitch sample_note)))
          (spec_millis sample_tempo (offset sample_note))
          (100 + spec_millis sample_tempo
                   (articulation sample_note * duration sample_note)
           - round (articulation sample_note * of_int 100)%Qc)).
Proof.
  split; [reflexivity|]. split; [reflexivity|].
  apply (note_to_machine_note_spec sample_tempo sample_note); reflexivity.
Defined.

(** The end-to-end scenario at concert A. *)
Lemma single_note_projection_witness :
  freq440 A4 = Fraction 440 1 /\
  note_to_machine_note (quarter_equals 120)
    (mkNote A4 0%Qc (Fraction 1 4) articulations.NON_LEGATO)
  = Ok (mkMachineNote 440 0 386).
Proof.
  split; [reflexivity|].
  apply (single_note_projection A4). reflexivity.
Defined.

(** The end-to-end scenario does not give 208 ms. *)
Lemma single_note_projection_not_208 :
  freq440 A4 = Fraction 440 1 /\
  exists m,
    note_to_machine_note (quarter_equals 120)
      (mkNote A4 0%Qc (Fraction 1 4) articulations.NON_LEGATO) = Ok m /\
    frequency m = 440 /\ offset_millis m = 0 /\
    duration_millis m = 386 /\ duration_millis m <> 208.
Proof.
  split; [reflexivity|]. eexists. split; [vm_compute; reflexivity|].
  cbn. repeat split; lia.
Qed.

(** An empty note sequence is accepted. *)
Lemma empty_melody_is_constructed :
  ~ is_Raise (Melody_init (@nil (Note SamplePitch)) sample_tempo) /\
  exists mel,
    Melody_init (@nil (Note SamplePitch)) sample_tempo = Ok mel /\
    notes mel = [].
Proof.
  split.
  - intros [e He]. discriminate He.
  - eexists. split; reflexivity.
Qed.

Lemma empty_melody_construction_witness :
  [sample_note] <> [] /\
  exists mel d,
    Melody_init [sample_note] sample_tempo = Ok mel /\
    Melody_duration mel = Ok d.
Proof.
  split; [discriminate|].
  apply (empty_melody_construction (Pitch := SamplePitch) sample_tempo).
  discriminate.
Defined.

(** A note of duration -1 and articulation 2 is accepted. *)
Lemma Note_init_accepts_invalid :
  ~ is_Raise (Note_init A4 0%Qc (Fraction (-1) 1) (Fraction 2 1)) /\
  exists n,
    Note_init A4 0%Qc (Fraction (-1) 1) (Fraction 2 1) = Ok n /\
    ~ (0 < duration n)%Qc /\ ~ (articulation n <= 1)%Qc.
Proof.
  split.
  - intros [e He]. discriminate He.
  - eexists. split; [reflexivity|]. split; intros Hc.
    + vm_compute in Hc. discriminate Hc.
    + apply Hc. reflexivity.
Qed.

(** Tying the sample note with a later note of the same pitch, and with a
    note of another pitch. *)
Lemma tie_with_spec_witness :
  pitch sample_note = pitch sample_late_note /\
  pitch sample_note <> pitch sample_other_pitch_note /\
  (exists r,
      tie_with sample_note sample_late_note = Ok r /\
      offset r = 0%Qc /\ duration r = Fraction 3 4 /\
      articulation r = articulations.STACCATO) /\
  tie_with sample_note sample_other_pitch_note = Raise ValueError.
Proof.
  split; [reflexivity|]. split; [discriminate|]. split.
  - destruct (proj1 (tie_with_spec sample_note sample_late_note) eq_refl)
      as (r & lo & hi & Hr & _).
    exists r. split; [exact Hr|].
    vm_compute in Hr. injection Hr as <-.
    repeat split; apply Qc_is_canon; reflexivity.
  - apply (proj2 (tie_with_spec sample_note sample_other_pitch_note)).
    discriminate.
Defined.

(** Tying two notes of the same pitch whose written intervals [0, 1/4] and
    [1/2, 3/4] are disjoint: one interval [0, 3/4] in either order. *)
Lemma tie_with_comm_interval_witness :
  pitch sample_note = pitch sample_late_note /\
  (end_offset sample_note < offset sample_late_note)%Qc /\
  exists r r',
    tie_with sample_note sample_late_note = Ok r /\
    tie_with sample_late_note sample_note = Ok r' /\
    offset r = offset r' /\ duration r = duration r' /\
    articulation r = articulations.STACCATO /\
    articulation r' = articulations.NON_LEGATO /\
    r <> r'.
Proof.
  split; [reflexivity|]. split; [reflexivity|].
  destruct (tie_with_comm_interval sample_note sample_late_note eq_refl)
    as (r & r' & Hr & Hr' & Ho & Hd & _ & _ & _ & _ & Ha & Ha' & Hne).
  exists r, r'. repeat split; try assumption.
  apply Hne. intros Hc. vm_compute in Hc. discriminate Hc.
Defined.

(** The three-note slur whose last note is staccato. *)
Lemma slur_inference_witness :
  slurs_in_stream sample_slur_stream /\
  exists arena,
    from_stream_notes sample_slur_stream = Ok arena /\
    articulation <$> arena !! 0%nat = Some (Fraction 1 1) /\
    articulation <$> arena !! 1%nat = Some (Fraction 1 1) /\
    articulation <$> arena !! 2%nat = Some (Fraction 2 7).
Proof.
  assert (Hwf : slurs_in_stream sample_slur_stream).
  { unfold slurs_in_stream. cbn. repeat constructor. }
  split; [exact Hwf|].
  destruct (slur_inference sample_slur_stream Hwf)
    as (arena & mel & Ha & _ & _ & Hin & Hlast & _).
  exists arena. split; [exact Ha|].
  assert (Hsl : [0; 1; 2]%nat ∈ m21_slurs sample_slur_stream)
    by apply list_elem_of_here.
  split; [|split].
  - eapply (Hin _ 0%nat);
      [exact Hsl | cbn; apply list_elem_of_here | reflexivity | reflexivity].
  - eapply (Hin _ 1%nat);
      [exact Hsl | cbn; apply list_elem_of_further, list_elem_of_here
      | reflexivity | reflexivity].
  - eapply (Hlast _ 2%nat); [exact Hsl | reflexivity..].
Defined.

(** Tenuto, accent and staccato on one note. *)
Lemma staccato_tenuto_resolution_witness :
  slurs_in_stream sample_mezzo_stream /\
  exists arena n,
    from_stream_notes sample_mezzo_stream = Ok arena /\
    arena !! 0%nat = Some n /\ articulation n = Fraction 3 7.
Proof.
  assert (Hwf : slurs_in_stream sample_mezzo_stream) by constructor.
  split; [exact Hwf|].
  destruct (staccato_tenuto_resolution sample_mezzo_stream Hwf)
    as (arena & mel & Ha & _ & _ & Hboth).
  destruct (Hboth 0%nat _ eq_refl) as (n & Hn & Hr & _).
  - cbn. apply list_elem_of_further, list_elem_of_further, list_elem_of_here.
  - cbn. apply list_elem_of_here.
  - by exists arena, n.
Defined.

(** Quarter = 120 to eighths and back. *)
Lemma convert_round_trip_witness :
  (0 < subdivision sample_tempo)%Qc /\ (0 < Fraction 1 8)%Qc /\
  exists t1 t2,
    convert_to_subdivision sample_tempo (Fraction 1 8) = Ok t1 /\
    convert_to_subdivision t1 (subdivision sample_tempo) = Ok t2 /\
    Z.abs (beats_per_minute t2 - beats_per_minute sample_tempo) <= 1.
Proof.
  split; [reflexivity|]. split; [reflexivity|].
  destruct (convert_round_trip sample_tempo (Fraction 1 8) eq_refl eq_refl)
    as (t1 & t2 & H1 & H2 & _ & _ & Hone & _).
  exists t1, t2. split; [exact H1|]. split; [exact H2|].
  apply Hone. reflexivity.
Defined.

(** Quarter = 100 to sixty-fourths and back gives quarter = 96. *)
Lemma convert_round_trip_off_by_four :
  (0 < subdivision (quarter_equals 100))%Qc /\
  0 < beats_per_minute (quarter_equals 100) /\
  (0 < Fraction 1 64)%Qc /\
  exists t1 t2,
    convert_to_subdivision (quarter_equals 100) (Fraction 1 64) = Ok t1 /\
    convert_to_subdivision t1 (subdivision (quarter_equals 100)) = Ok t2 /\
    beats_per_minute t1 = 6 /\
    beats_per_minute t2 = 96 /\
    ~ Z.abs (beats_per_minute t2 - beats_per_minute (quarter_equals 100)) <= 1.
Proof.
  do 3 (split; [reflexivity|]).
  eexists _, _. split; [vm_compute; reflexivity|].
  split; [vm_compute; reflexivity|]. do 2 (split; [reflexivity|]).
  cbn. lia.
Qed.

(** The projected duration of the sample note is non-negative. *)
Lemma duration_millis_nonneg_witness :
  (0 < subdivision sample_tempo)%Qc /\ 0 < beats_per_minute sample_tempo /\
  (0 < duration sample_note)%Qc /\
  (0 < articulation sample_note)%Qc /\ (articulation sample_note <= 1)%Qc /\
  exists m,
    note_to_machine_note sample_tempo sample_note = Ok m /\
    0 <= duration_millis m.
Proof.
  do 4 (split; [reflexivity|]). split; [discriminate|].
  apply (proj1 (duration_millis_nonneg (Pitch := SamplePitch))
           sample_tempo sample_note);
    try reflexivity; discriminate.
Defined.

(** * Further properties *)

(** ** Sorting by offset *)

Section SortedFacts.
Context {A : Type} (key : A -> Qc).

Lemma insert_StronglySorted (x : A) (l : list A) :
  StronglySorted (key_le key) l -> StronglySorted (key_le key) (insert key x l).
Proof.
  induction 1 as [|y l Hl IH Hy]; cbn [insert].
  - repeat constructor.
  - destruct (decide (key y < key x)%Qc) as [Hlt | Hge].
    + constructor; [exact IH|].
      rewrite (insert_Permutation key x l). constructor; [|exact Hy].
      by apply Qclt_le_weak.
    + apply Qcnot_lt_le in Hge.
      constructor; [by constructor|]. constructor; [exact Hge|].
      eapply list.Forall_impl; [exact Hy|]. intros z Hz. unfold key_le in *.
      by eapply Qcle_trans.
Qed.

Lemma sorted_StronglySorted (l : list A) : StronglySorted (key_le key) (sorted key l).
Proof.
  unfold sorted. induction l as [|x l IH]; cbn [foldr]; [constructor|].
  by apply insert_StronglySorted.
Qed.

Lemma insert_filter_key (q : Qc) (x : A) (l : list A) :
  filter (fun y => key y = q) (insert key x l)
  = filter (fun y => key y = q) (x :: l).
Proof.
  induction l as [|y l IH]; [done|]. cbn [insert].
  destruct (decide (key y < key x)%Qc) as [Hlt | Hge]; [|done].
  rewrite filter_cons, IH, !filter_cons.
  destruct (decide (key y = q)) as [Hy | Hy];
    destruct (decide (key x = q)) as [Hx | Hx]; try done.
  exfalso. rewrite Hy, Hx in Hlt. by apply Qclt_not_eq in Hlt.
Qed.

Lemma sorted_filter_key (q : Qc) (l : list A) :
  filter (fun y => key y = q) (sorted key l) = filter (fun y => key y = q) l.
Proof.
  unfold sorted. induction l as [|x l IH]; [done|]. cbn [foldr].
  by rewrite insert_filter_key, !filter_cons, IH.
Qed.

Lemma sorted_fixed (l : list A) : StronglySorted (key_le key) l -> sorted key l = l.
Proof.
  unfold sorted. induction 1 as [|x l Hl IH Hx]; [done|].
  cbn [foldr]. rewrite IH. destruct l as [|y l]; [done|]. cbn [insert].
  apply list.Forall_cons in Hx as [Hxy _].
  rewrite decide_False; [done|]. by apply Qcle_not_lt.
Qed.
End SortedFacts.

(** ** Errors of the projection *)

Lemma round_mono (q r : Qc) : (q <= r)%Qc -> round q <= round r.
Proof.
  intros Hqr. destruct (Z_le_gt_dec (round q) (round r)) as [|Hgt]; [done|].
  exfalso.
  pose proof (round_half q) as [Hq _]. pose proof (round_half r) as [_ Hr].
  unfold Qcle in Hqr.
  assert (Hz : (inject_Z (round r) + 1 <= inject_Z (round q))%Q).
  { change 1%Q with (inject_Z 1). rewrite <- inject_Z_plus, <- Zle_Qle. lia. }
  assert (Heq : (this q == this r)%Q) by lra.
  apply Qc_is_canon in Heq. subst r. lia.
Qed.

Lemma of_int_eq_0 (z : Z) : of_int z = 0%Qc <-> z = 0.
Proof.
  split; [|intros ->; by apply Qc_is_canon].
  intros Hz. apply (f_equal this) in Hz. rewrite this_of_int in Hz.
  by injection Hz.
Qed.

Lemma rate_eq_0 (t : Tempo) :
  rate t = 0%Qc <-> beats_per_minute t = 0 \/ subdivision t = 0%Qc.
Proof.
  unfold rate. split.
  - intros Hr. apply Qcmult_integral in Hr as [Hb | Hs]; [left | by right].
    by apply of_int_eq_0.
  - intros [-> | ->]; [apply Qcmult_0_l | apply Qcmult_0_r].
Qed.

Lemma wholes_to_milliseconds_cases (t : Tempo) (d : Qc) :
  (rate t = 0%Qc /\ wholes_to_milliseconds t d = Raise ZeroDivisionError) \/
  (rate t <> 0%Qc /\ wholes_to_milliseconds t d = Ok (spec_millis t d)).
Proof.
  unfold wholes_to_milliseconds, truediv. fold (rate t).
  destruct (decide (rate t = 0%Qc)); [by left | by right].
Qed.

Lemma spec_millis_mono (t : Tempo) (d d' : Qc) :
  valid_tempo t -> (d <= d')%Qc -> spec_millis t d <= spec_millis t d'.
Proof.
  intros Ht Hd. apply round_mono. pose proof (rate_pos t Ht) as Hr.
  unfold Qcle, Qclt in *. rewrite !this_mult, !this_div, !this_of_int.
  change (this 0%Qc) with 0%Q in *. change (inject_Z 60000) with 60000%Q.
  set (r := this (of_int (beats_per_minute t) * subdivision t)%Qc) in *.
  assert (this d / r <= this d' / r)%Q; [|lra].
  unfold Qdiv. apply Qmult_le_compat_r; [done|].
  apply Qlt_le_weak, Qinv_lt_0_compat, Hr.
Qed.

Section ProjectionErrors.
Context {Pitch : Type} `{PitchOps Pitch}.

Lemma note_to_machine_note_cases (t : Tempo) (n : Note Pitch) :
  (rate t = 0%Qc /\ note_to_machine_note t n = Raise ZeroDivisionError) \/
  (rate t <> 0%Qc /\
   note_to_machine_note t n =
     Ok (mkMachineNote
           (round (freq440 (pitch n)))
           (spec_millis t (offset n))
           (100 + spec_millis t (articulation n * duration n)
            - round (articulation n * of_int 100)%Qc))).
Proof.
  unfold note_to_machine_note.
  destruct (wholes_to_milliseconds_cases t (offset n)) as [[Hr ->] | [Hr ->]].
  - by left.
  - right. split; [done|].
    destruct (wholes_to_milliseconds_cases t (articulation n * duration n)%Qc)
      as [[Hr' ->] | [_ ->]]; done.
Qed.

(** X3: the projection of a note raises [ZeroDivisionError] exactly when
    the tempo has rate 0 or subdivision 0, and succeeds on every other
    tempo, negative ones included, whatever the note. *)
Theorem note_to_machine_note_ZeroDivisionError (t : Tempo) (n : Note Pitch) :
  (note_to_machine_note t n = Raise ZeroDivisionError
   <-> beats_per_minute t = 0 \/ subdivision t = 0%Qc) /\
  (is_Ok (note_to_machine_note t n)
   <-> beats_per_minute t <> 0 /\ subdivision t <> 0%Qc).
Proof.
  rewrite <- rate_eq_0.
  assert (Hn : rate t <> 0%Qc <-> beats_per_minute t <> 0 /\ subdivision t <> 0%Qc).
  { rewrite rate_eq_0. destruct (decide (beats_per_minute t = 0)); 
      destruct (decide (subdivision t = 0%Qc)); tauto. }
  rewrite <- Hn.
  destruct (note_to_machine_note_cases t n) as [[Hr ->] | [Hr ->]].
  - split; [done|]. split; [intros [m Hm]; done | done].
  - split; [done|]. split; [done | by eexists].
Qed.

Lemma get_machine_notes_cases (mel : Melody Pitch) :
  (rate (tempo mel) = 0%Qc /\ notes mel <> [] /\
   get_machine_notes mel = Raise ZeroDivisionError) \/
  ((rate (tempo mel) <> 0%Qc \/ notes mel = []) /\
   get_machine_notes mel =
     Ok ((fun n => mkMachineNote
           (round (freq440 (pitch n)))
           (spec_millis (tempo mel) (offset n))
           (100 + spec_millis (tempo mel) (articulation n * duration n)
            - round (articulation n * of_int 100)%Qc)) <$> notes mel)).
Proof.
  unfold get_machine_notes. destruct (decide (rate (tempo mel) = 0%Qc)) as [Hr | Hr].
  - destruct (notes mel) as [|n ns]; [right; split; [by right | done]|].
    left. split; [done|]. split; [done|]. cbn [comprehension].
    destruct (note_to_machine_note_cases (tempo mel) n) as [[_ ->] | [Hr' _]]; done.
  - right. split; [by left|]. apply comprehension_total. intros n.
    destruct (note_to_machine_note_cases (tempo mel) n) as [[Hr' _] | [_ ->]]; done.
Qed.
Lemma get_machine_notes_Raise (mel : Melody Pitch) (e : exn) :
  get_machine_notes mel = Raise e -> e = ZeroDivisionError.
Proof.
  destruct (get_machine_notes_cases mel) as [(_ & _ & ->) | (_ & ->)];
    [by intros [= <-] | done].
Qed.

Lemma get_machine_notes_length (mel : Melody Pitch) (mns : list MachineNote) :
  get_machine_notes mel = Ok mns -> length mns = length (notes mel).
Proof.
  destruct (get_machine_notes_cases mel) as [(_ & _ & ->) | (_ & ->)];
    [done|]. intros [= <-]. by rewrite length_fmap.
Qed.
End ProjectionErrors.

(** ** Melodies *)

Lemma StronglySorted_fmap_mono {A B} (R : A -> A -> Prop) (R' : B -> B -> Prop)
    (f : A -> B) (l : list A) :
  (forall x y, R x y -> R' (f x) (f y)) ->
  StronglySorted R l -> StronglySorted R' (f <$> l).
Proof.
  intros Hf. induction 1 as [|x l Hl IH Hx]; [constructor|].
  rewrite fmap_cons. constructor; [exact IH|].
  apply list.Forall_fmap. eapply list.Forall_impl; [exact Hx|].
  intros y Hy. by apply Hf.
Qed.

Lemma StronglySorted_last_max {A} (R : A -> A -> Prop) (l : list A) (z : A) :
  (forall x, R x x) ->
  StronglySorted R l -> list.last l = Some z -> forall x, x ∈ l -> R x z.
Proof.
  intros Hrefl. induction 1 as [|y l Hl IH Hy]; intros Hz x Hx.
  - by apply elem_of_nil in Hx.
  - destruct l as [|y' l'].
    + cbn in Hz. injection Hz as <-. apply list_elem_of_singleton in Hx as ->.
      apply Hrefl.
    + rewrite last_cons_cons in Hz.
      apply elem_of_cons in Hx as [-> | Hx]; [|by apply IH].
      rewrite list.Forall_forall in Hy. apply Hy.
      apply last_Some_elem_of. exact Hz.
Qed.

Section MelodyFacts.
Context {Pitch : Type} `{PitchOps Pitch}.

(** X1: [Melody.__init__] never fails; the melody holds the given tempo and
    the given notes, none lost or added, in non-decreasing order of
    offset, and [number_of_notes] is the length of the input. *)
Theorem Melody_init_sorted (ns : list (Note Pitch)) (t : Tempo) :
  exists mel,
    Melody_init ns t = Ok mel /\
    tempo mel = t /\
    notes mel ≡ₚ ns /\
    number_of_notes mel = Z.of_nat (length ns) /\
    StronglySorted offset_le (notes mel).
Proof.
  eexists. split; [reflexivity|]. cbn [tempo notes]. split; [done|].
  split; [apply sorted_Permutation|]. split.
  - unfold number_of_notes. cbn [notes].
    by rewrite (sorted_Permutation offset ns).
  - apply (sorted_StronglySorted offset).
Qed.

(** X2: the sort of [Melody.__init__] is stable: for every offset, the notes
    at that offset stand in the melody in their input order; an input
    already in non-decreasing order of offset is kept as it is, so
    building a melody again from a melody's notes changes nothing. *)
Theorem Melody_init_stable (ns : list (Note Pitch)) (t : Tempo) :
  exists mel,
    Melody_init ns t = Ok mel /\
    (forall q : Qc,
        filter (fun n => offset n = q) (notes mel)
        = filter (fun n => offset n = q) ns) /\
    (StronglySorted offset_le ns -> notes mel = ns) /\
    Melody_init (notes mel) t = Ok mel.
Proof.
  eexists. split; [reflexivity|]. cbn [notes]. split; [|split].
  - intros q. apply sorted_filter_key.
  - apply (sorted_fixed offset).
  - unfold Melody_init. do 2 f_equal.
    apply (sorted_fixed offset), (sorted_StronglySorted offset).
Qed.

(** X4: [get_machine_notes] raises [ZeroDivisionError] exactly on a
    melody that has a note and whose tempo has rate 0 or subdivision 0
    (the empty melody never raises); it raises nothing else, and a result
    has one machine note per note. *)
Theorem get_machine_notes_errors (mel : Melody Pitch) :
  (get_machine_notes mel = Raise ZeroDivisionError
   <-> notes mel <> [] /\
       (beats_per_minute (tempo mel) = 0 \/ subdivision (tempo mel) = 0%Qc)) /\
  (forall e, get_machine_notes mel = Raise e -> e = ZeroDivisionError) /\
  (forall mns, get_machine_notes mel = Ok mns ->
               length mns = length (notes mel)).
Proof.
  rewrite <- rate_eq_0.
  destruct (get_machine_notes_cases mel) as [(Hr & Hn & ->) | (Hc & ->)].
  - split; [done|]. split; [by intros e [= <-] | done].
  - split; [|split; [done|]].
    + split; [done|]. intros [Hn Hr]. by destruct Hc.
    + intros mns [= <-]. by rewrite length_fmap.
Qed.

(** X5: under a tempo with positive subdivision and rate, the machine
    notes of a melody built from any notes come one per note and in
    non-decreasing order of [offset_millis]. *)
Theorem machine_notes_sorted (ns : list (Note Pitch)) (t : Tempo) :
  (0 < subdivision t)%Qc -> 0 < beats_per_minute t ->
  exists mel mns,
    Melody_init ns t = Ok mel /\
    get_machine_notes mel = Ok mns /\
    length mns = length ns /\
    StronglySorted offset_millis_le mns.
Proof.
  intros Hs Hb. assert (Ht : valid_tempo t) by done.
  eexists _, (project t <$> sorted offset ns).
  split; [reflexivity|]. split; [|split].
  - unfold get_machine_notes. cbn [tempo notes].
    apply comprehension_total. intros n. by apply note_to_machine_note_Ok.
  - by rewrite length_fmap, (sorted_Permutation offset ns).
  - apply (StronglySorted_fmap_mono offset_le);
      [|apply (sorted_StronglySorted offset)].
    intros x y Hxy. by apply spec_millis_mono.
Qed.
End MelodyFacts.

(** ** Durations of a melody *)

Lemma of_int_neq_0 (z : Z) : z <> 0 -> of_int z <> 0%Qc.
Proof. intros Hz Ho. by apply Hz, of_int_eq_0. Qed.

Section MelodyDurations.
Context {Pitch : Type} `{PitchOps Pitch}.

Lemma last_item_Some {A} (l : list A) (x : A) :
  list.last l = Some x -> last_item l = Ok x.
Proof. intros Hl. unfold last_item. by rewrite Hl. Qed.

Lemma sorted_last_exists (ns : list (Note Pitch)) :
  ns <> [] ->
  exists l, list.last (sorted offset ns) = Some l /\ l ∈ ns /\
            forall n, n ∈ ns -> (offset n <= offset l)%Qc.
Proof.
  intros Hns. destruct (list.last (sorted offset ns)) as [l|] eqn:Hl.
  - exists l. split; [done|].
    pose proof (sorted_Permutation offset ns) as Hp. split.
    + rewrite <- Hp. by apply last_Some_elem_of.
    + intros n Hn. rewrite <- Hp in Hn.
      apply (StronglySorted_last_max (key_le offset) (sorted offset ns) l);
        [intros x; apply Qcle_refl | apply sorted_StronglySorted | done | done].
  - apply last_None in Hl. exfalso. apply Hns.
    apply Permutation_nil. rewrite <- Hl. apply sorted_Permutation.
Qed.

(** X6: the duration of a melody built from a non-empty sequence is the
    end offset of a note of the input that starts no earlier than any
    other: the end of the last note to start, which need not be the latest
    end. *)
Theorem Melody_duration_latest_start (ns : list (Note Pitch)) (t : Tempo) :
  ns <> [] ->
  exists mel l,
    Melody_init ns t = Ok mel /\
    l ∈ ns /\
    (forall n, n ∈ ns -> (offset n <= offset l)%Qc) /\
    Melody_duration mel = Ok (end_offset l).
Proof.
  intros Hns. destruct (sorted_last_exists ns Hns) as (l & Hl & Hin & Hmax).
  eexists _, l. split; [reflexivity|]. split; [done|]. split; [done|].
  unfold Melody_duration. cbn [notes]. by rewrite (last_item_Some _ l Hl).
Qed.

(** X7: under a tempo with positive subdivision and rate, for a non-empty
    sequence of notes with non-negative durations and articulations in
    [0, 1], [get_actual_duration] succeeds and is at least the
    [offset_millis] of every machine note. *)
Theorem get_actual_duration_covers_starts (ns : list (Note Pitch)) (t : Tempo) :
  (0 < subdivision t)%Qc -> 0 < beats_per_minute t ->
  ns <> [] ->
  (forall n, n ∈ ns ->
             (0 <= duration n)%Qc /\
             (0 <= articulation n)%Qc /\ (articulation n <= 1)%Qc) ->
  exists mel mns total,
    Melody_init ns t = Ok mel /\
    get_machine_notes mel = Ok mns /\
    get_actual_duration mel = Ok total /\
    forall m, m ∈ mns -> offset_millis m <= total.
Proof.
  intros Hs Hb Hns Hvalid. assert (Ht : valid_tempo t) by done.
  destruct (sorted_last_exists ns Hns) as (l & Hl & Hin & Hmax).
  assert (Hg : get_machine_notes (mkMelody (sorted offset ns) t)
               = Ok (project t <$> sorted offset ns)).
  { unfold get_machine_notes. cbn [tempo notes].
    apply comprehension_total. intros n. by apply note_to_machine_note_Ok. }
  eexists _, _, _. split; [reflexivity|]. split; [exact Hg|].
  assert (Hlast : list.last (project t <$> sorted offset ns) = Some (project t l))
    by (by rewrite fmap_last, Hl).
  split.
  - unfold get_actual_duration. rewrite Hg. cbn [mbind result_bind].
    rewrite (last_item_Some _ _ Hlast). reflexivity.
  - intros m Hm. apply list_elem_of_fmap in Hm as (n & -> & Hn).
    rewrite (sorted_Permutation offset ns) in Hn.
    cbn [project offset_millis duration_millis].
    destruct (Hvalid l Hin) as (Hd & Ha0 & Ha1).
    pose proof (spec_millis_mono t _ _ Ht (Hmax n Hn)).
    pose proof (round_percent_le _ Ha1).
    assert (0 <= spec_millis t (articulation l * duration l)); [|lia].
    apply spec_millis_nonneg; [done|].
    unfold Qcle in *. rewrite this_mult. change (this 0%Qc) with 0%Q in *. nra.
Qed.

(** X8: on a tempo whose rate and subdivision are not 0, [k] beats last
    [round(k * 60000 / beats_per_minute)] milliseconds, whatever the
    subdivision. *)
Theorem one_beat_millis (t : Tempo) (k : Qc) :
  beats_per_minute t <> 0 -> subdivision t <> 0%Qc ->
  wholes_to_milliseconds t (k * subdivision t)%Qc
  = Ok (round (k * of_int 60000 / of_int (beats_per_minute t))%Qc).
Proof.
  intros Hb Hs. apply of_int_neq_0 in Hb.
  destruct (wholes_to_milliseconds_cases t (k * subdivision t)%Qc)
    as [[Hr _] | [_ ->]].
  - apply rate_eq_0 in Hr as [Hr | Hr]; [|done].
    exfalso. apply Hb. by apply of_int_eq_0.
  - unfold spec_millis. do 2 f_equal. field. by split.
Qed.
End MelodyDurations.

(** ** What [from_stream] keeps *)

Ltac elem_of_listed :=
  repeat first [apply list_elem_of_here | apply list_elem_of_further].

Lemma table_ratio (a : m21_articulation) (r : Qc) :
  dict_get MUSIC21_ARTICULATION_MAPPING a = Some r ->
  r ∈ [Fraction 1 7; Fraction 2 7; Fraction 5 7; Fraction 6 7].
Proof.
  destruct a; cbn; intros [= <-]; elem_of_listed.
Qed.

Lemma marking_target_ratio (arts : list m21_articulation) (r : Qc) :
  marking_target arts = Some r -> r ∈ inferable_ratios.
Proof.
  unfold marking_target, inferable_ratios.
  destruct (any_of_type Staccato arts && any_of_type Tenuto arts).
  - intros [= <-]. elem_of_listed.
  - destruct (first_mapped arts) as [a|]; [|done]. cbn [mbind option_bind].
    intros Hr. apply table_ratio in Hr.
    rewrite !elem_of_cons, elem_of_nil in *. tauto.
Qed.

Lemma inferable_ratio_range (r : Qc) :
  r ∈ inferable_ratios -> (0 < r)%Qc /\ (r <= 1)%Qc.
Proof.
  unfold inferable_ratios. rewrite !elem_of_cons, elem_of_nil.
  intros [-> | [-> | [-> | [-> | [-> | [-> | []]]]]]]; split; done.
Qed.

Lemma any_of_type_false (c : m21_articulation) (arts : list m21_articulation) :
  c ∉ arts -> any_of_type c arts = false.
Proof.
  intros Hc. unfold any_of_type. destruct (existsb _ arts) eqn:He; [|done].
  apply existsb_exists in He as (a & Ha & Hd).
  apply bool_decide_eq_true in Hd as ->. by apply list_elem_of_In in Ha.
Qed.

Lemma first_mapped_app (pre post : list m21_articulation) (a : m21_articulation) :
  Forall (fun b => dict_get MUSIC21_ARTICULATION_MAPPING b = None) pre ->
  is_Some (dict_get MUSIC21_ARTICULATION_MAPPING a) ->
  first_mapped (pre ++ a :: post) = Some a.
Proof.
  intros Hpre Ha. unfold first_mapped.
  induction Hpre as [|b pre Hb _ IH]; cbn [app find].
  - by rewrite bool_decide_eq_true_2.
  - rewrite bool_decide_eq_false_2; [exact IH|]. rewrite Hb. by intros [? ?].
Qed.

Lemma first_mapped_none (arts : list m21_articulation) :
  Forall (fun b => dict_get MUSIC21_ARTICULATION_MAPPING b = None) arts ->
  first_mapped arts = None.
Proof.
  intros Harts. unfold first_mapped.
  induction Harts as [|b arts Hb _ IH]; [done|]. cbn [find].
  rewrite bool_decide_eq_false_2; [exact IH|]. rewrite Hb. by intros [? ?].
Qed.

Section InferenceFacts.
Context {Pitch : Type} `{PitchOps Pitch}.
Local Open Scope nat_scope.


Lemma inferred_note_ratio (s : m21_Stream Pitch) (i : nat) (m : m21_Note Pitch) :
  articulation (inferred_note s i m) ∈ inferable_ratios.
Proof.
  unfold inferred_note, apply_marking.
  destruct (marking_target _) as [r|] eqn:Hr.
  - cbn. by apply marking_target_ratio in Hr.
  - unfold inferable_ratios. destruct (decide _); cbn; elem_of_listed.
Qed.


(** X10: every note of a melody built by [from_stream] has one of the
    ratios 1/7, 2/7, 3/7, 5/7, 6/7, 1 as articulation, so an articulation
    in (0, 1]; the portato ratio 4/7 is never given. *)
Theorem from_stream_articulation_range (s : m21_Stream Pitch) :
  slurs_in_stream s ->
  exists mel,
    from_stream s = Ok mel /\
    forall n, n ∈ notes mel ->
      articulation n ∈ inferable_ratios /\
      (0 < articulation n)%Qc /\ (articulation n <= 1)%Qc /\
      articulation n <> Fraction 4 7.
Proof.
  intros Hwf.
  destruct (from_stream_notes_Ok s Hwf) as (arena & Ha & Hlen & Hnotes).
  destruct (from_stream_Ok s arena Ha) as (mel & Hm & Hp).
  exists mel. split; [done|]. intros n Hn. rewrite Hp in Hn.
  apply list_elem_of_lookup in Hn as [i Hi].
  assert (Hlt : i < length (m21_notes s)).
  { rewrite <- Hlen. by apply lookup_lt_Some in Hi. }
  destruct (lookup_lt_is_Some_2 _ _ Hlt) as [m Hmi].
  rewrite (Hnotes i m Hmi) in Hi. injection Hi as <-.
  pose proof (inferred_note_ratio s i m) as Hr.
  split; [exact Hr|]. destruct (inferable_ratio_range _ Hr) as [H0 H1].
  do 2 (split; [done|]). intros Hc. rewrite Hc in Hr.
  unfold inferable_ratios in Hr. rewrite !elem_of_cons, elem_of_nil in Hr.
  destruct Hr as [Hr | [Hr | [Hr | [Hr | [Hr | [Hr | []]]]]]]; discriminate Hr.
Qed.
End InferenceFacts.

(** ** Markings and slurs *)

Lemma unmapped_not_Staccato (arts : list m21_articulation) :
  Forall unmapped arts -> Staccato ∉ arts.
Proof.
  intros Hu Hs. rewrite list.Forall_forall in Hu. by specialize (Hu _ Hs).
Qed.

Section MarkingFacts.
Context {Pitch : Type} `{PitchOps Pitch}.
Local Open Scope nat_scope.

(** X11: a note whose markings are not the staccato and tenuto pair ends
    with the ratio of the first of its markings that is in the table,
    whatever markings outside the table precede it, whatever follows it,
    and whether or not a slur made the note legato. *)
Theorem first_table_marking_wins (s : m21_Stream Pitch) :
  slurs_in_stream s ->
  exists arena,
    from_stream_notes s = Ok arena /\
    forall i m pre a post r,
      m21_notes s !! i = Some m ->
      m21_articulations m = pre ++ a :: post ->
      Forall unmapped pre ->
      dict_get MUSIC21_ARTICULATION_MAPPING a = Some r ->
      ~ (Staccato ∈ m21_articulations m /\ Tenuto ∈ m21_articulations m) ->
      articulation <$> arena !! i = Some r.
Proof.
  intros Hwf.
  destruct (from_stream_notes_Ok s Hwf) as (arena & Ha & _ & Hnotes).
  exists arena. split; [done|].
  intros i m pre a post r Hi Harts Hpre Hr Hboth.
  rewrite (Hnotes i m Hi). cbn. f_equal. apply inferred_marked.
  unfold marking_target.
  assert (any_of_type Staccato (m21_articulations m)
          && any_of_type Tenuto (m21_articulations m) = false) as ->.
  { destruct (decide (Staccato ∈ m21_articulations m)) as [Hs | Hs];
      [|by rewrite (any_of_type_false _ _ Hs)].
    destruct (decide (Tenuto ∈ m21_articulations m)) as [Ht | Ht];
      [by destruct Hboth|].
    rewrite (any_of_type_false _ _ Ht). apply andb_false_r. }
  rewrite Harts, (first_mapped_app pre post a Hpre) by (by rewrite Hr).
  exact Hr.
Qed.

(** X12: a note whose markings are all outside the table is treated as an
    unmarked note: legato when it is in a slur at a place other than the
    last, the default 5/7 otherwise. *)
Theorem unmapped_markings_are_ignored (s : m21_Stream Pitch) :
  slurs_in_stream s ->
  exists arena,
    from_stream_notes s = Ok arena /\
    forall i m,
      m21_notes s !! i = Some m ->
      Forall unmapped (m21_articulations m) ->
      (slurred (m21_slurs s) i ->
       articulation <$> arena !! i = Some articulations.LEGATO) /\
      (~ slurred (m21_slurs s) i ->
       articulation <$> arena !! i = Some articulations.NON_LEGATO).
Proof.
  intros Hwf.
  destruct (from_stream_notes_Ok s Hwf) as (arena & Ha & _ & Hnotes).
  exists arena. split; [done|]. intros i m Hi Hu.
  rewrite (Hnotes i m Hi). cbn.
  assert (Hnone : marking_target (m21_articulations m) = None).
  { unfold marking_target.
    rewrite (any_of_type_false _ _ (unmapped_not_Staccato _ Hu)).
    cbn [andb]. by rewrite (first_mapped_none _ Hu). }
  unfold inferred_note, apply_marking. rewrite Hnone.
  split; intros Hsl.
  - by rewrite decide_True.
  - by rewrite decide_False.
Qed.

End MarkingFacts.

(** ** More on ties *)

Lemma min_le_l (x y : Qc) : (min x y <= x)%Qc.
Proof. by destruct (min_is_min x y) as (_ & ? & _). Qed.
Lemma min_le_r (x y : Qc) : (min x y <= y)%Qc.
Proof. by destruct (min_is_min x y) as (_ & _ & ?). Qed.
Lemma max_ge_l (x y : Qc) : (x <= max x y)%Qc.
Proof. by destruct (max_is_max x y) as (_ & ? & _). Qed.
Lemma max_ge_r (x y : Qc) : (y <= max x y)%Qc.
Proof. by destruct (max_is_max x y) as (_ & _ & ?). Qed.

Lemma min_glb (x y z : Qc) : (z <= x)%Qc -> (z <= y)%Qc -> (z <= min x y)%Qc.
Proof. intros Hx Hy. by destruct (min_is_min x y) as ([-> | ->] & _). Qed.
Lemma max_lub (x y z : Qc) : (x <= z)%Qc -> (y <= z)%Qc -> (max x y <= z)%Qc.
Proof. intros Hx Hy. by destruct (max_is_max x y) as ([-> | ->] & _). Qed.

Lemma min_assoc (x y z : Qc) : min (min x y) z = min x (min y z).
Proof.
  apply Qcle_antisym; repeat apply min_glb;
    eauto using Qcle_trans, min_le_l, min_le_r.
Qed.

Lemma max_assoc (x y z : Qc) : max (max x y) z = max x (max y z).
Proof.
  apply Qcle_antisym; repeat apply max_lub;
    eauto using Qcle_trans, max_ge_l, max_ge_r.
Qed.

Lemma min_diag (x : Qc) : min x x = x.
Proof. unfold min. by destruct (decide _). Qed.
Lemma max_diag (x : Qc) : max x x = x.
Proof. unfold max. by destruct (decide _). Qed.

Section TieFacts.
Context {Pitch : Type} `{PitchOps Pitch}.

Lemma tie_with_end_offset (p : Pitch) (a b : Note Pitch) (ar : Qc) :
  end_offset (mkNote p (min (offset a) (offset b))
    (max (end_offset a) (end_offset b) - min (offset a) (offset b))%Qc ar)
  = max (end_offset a) (end_offset b).
Proof. unfold end_offset at 1. cbn [offset duration]. ring. Qed.

(** X16: tying a note with itself gives the note back, and tying three
    notes of one pitch gives the same note however the two ties are
    nested. *)
Theorem tie_with_self_assoc :
  (forall a : Note Pitch, tie_with a a = Ok a) /\
  (forall a b c : Note Pitch,
      pitch a = pitch b -> pitch b = pitch c ->
      (ab ← tie_with a b; tie_with ab c)
      = (bc ← tie_with b c; tie_with a bc)).
Proof.
  split.
  - intros a. rewrite tie_with_Ok by done. rewrite min_diag, max_diag.
    destruct a as [p o d ar]. unfold end_offset. cbn [pitch offset duration articulation].
    do 2 f_equal. ring.
  - intros a b c Hab Hbc.
    rewrite (tie_with_Ok a b Hab), (tie_with_Ok b c Hbc).
    cbn [mbind result_bind].
    rewrite !tie_with_Ok by (cbn [pitch]; congruence).
    rewrite !tie_with_end_offset. cbn [pitch offset articulation].
    by rewrite min_assoc, max_assoc.
Qed.

(** X17: the tie of two notes of one pitch is at least as long as each of
    them; when the interval of the first contains that of the second, the
    tie has the offset and the duration of the first. *)
Theorem tie_with_never_shortens (a b : Note Pitch) :
  pitch a = pitch b ->
  exists r,
    tie_with a b = Ok r /\
    (duration a <= duration r)%Qc /\ (duration b <= duration r)%Qc /\
    ((offset a <= offset b)%Qc -> (end_offset b <= end_offset a)%Qc ->
     offset r = offset a /\ duration r = duration a).
Proof.
  intros Hp. eexists. split; [by apply tie_with_Ok|].
  cbn [offset duration].
  pose proof (min_le_l (offset a) (offset b)) as Hl.
  pose proof (min_le_r (offset a) (offset b)) as Hr.
  pose proof (max_ge_l (end_offset a) (end_offset b)) as Hl'.
  pose proof (max_ge_r (end_offset a) (end_offset b)) as Hr'.
  split; [|split].
  - unfold end_offset, Qcle in *. rewrite this_minus. rewrite this_plus in Hl'. lra.
  - unfold end_offset, Qcle in *. rewrite this_minus. rewrite this_plus in Hr'. lra.
  - intros Ho He.
    assert (Hmin : min (offset a) (offset b) = offset a).
    { apply Qcle_antisym; [done|]. apply min_glb; [apply Qcle_refl | done]. }
    assert (Hmax : max (end_offset a) (end_offset b) = end_offset a).
    { apply Qcle_antisym; [|done]. apply max_lub; [apply Qcle_refl | done]. }
    rewrite Hmin, Hmax. split; [done|]. unfold end_offset. ring.
Qed.
End TieFacts.

(** ** Tempo conversion and stream edge cases *)

Lemma of_int_mult (a b : Z) : of_int (a * b) = (of_int a * of_int b)%Qc.
Proof.
  apply Qc_is_canon. rewrite this_mult, !this_of_int.
  by rewrite inject_Z_mult.
Qed.

Lemma convert_to_subdivision_cases (t : Tempo) (s : Qc) :
  (subdivision t = 0%Qc /\ convert_to_subdivision t s = Raise ZeroDivisionError)
  \/ (subdivision t <> 0%Qc /\
      convert_to_subdivision t s =
        Ok (mkTempo s
              (round (of_int (beats_per_minute t) * s / subdivision t)%Qc))).
Proof.
  unfold convert_to_subdivision, truediv.
  destruct (decide (subdivision t = 0%Qc)); [by left | by right].
Qed.

(** X18: [convert_to_subdivision] raises [ZeroDivisionError] exactly when
    the tempo's own subdivision is 0; a result has the requested
    subdivision and a rate within 1/2 of
    [beats_per_minute * new_subdivision / subdivision]. *)
Theorem convert_to_subdivision_nearest (t : Tempo) (s : Qc) :
  (convert_to_subdivision t s = Raise ZeroDivisionError
   <-> subdivision t = 0%Qc) /\
  (forall t',
      convert_to_subdivision t s = Ok t' ->
      subdivision t' = s /\
      (of_int (beats_per_minute t') - Fraction 1 2
         <= of_int (beats_per_minute t) * s / subdivision t)%Qc /\
      (of_int (beats_per_minute t) * s / subdivision t
         <= of_int (beats_per_minute t') + Fraction 1 2)%Qc).
Proof.
  destruct (convert_to_subdivision_cases t s) as [[Hs ->] | [Hs ->]].
  - split; [done|]. intros t' Ht'. discriminate Ht'.
  - split; [done|]. intros t' [= <-]. cbn [subdivision beats_per_minute].
    split; [done|].
    pose proof (round_half (of_int (beats_per_minute t) * s / subdivision t)%Qc)
      as [Hl Hu].
    unfold Qcle. rewrite this_minus, this_plus, this_Fraction, !this_of_int.
    done.
Qed.

(** X19: converting a tempo of non-zero subdivision to [k] times its
    subdivision, [k] an integer, multiplies its rate by [k] exactly;
    converting to its own subdivision gives the tempo back. *)
Theorem convert_to_subdivision_multiple (t : Tempo) (k : Z) :
  subdivision t <> 0%Qc ->
  convert_to_subdivision t (of_int k * subdivision t)%Qc
  = Ok (mkTempo (of_int k * subdivision t)%Qc (k * beats_per_minute t)) /\
  convert_to_subdivision t (subdivision t) = Ok t.
Proof.
  intros Hs.
  assert (Hk : forall k',
    convert_to_subdivision t (of_int k' * subdivision t)%Qc
    = Ok (mkTempo (of_int k' * subdivision t)%Qc (k' * beats_per_minute t))).
  { intros k'.
    destruct (convert_to_subdivision_cases t (of_int k' * subdivision t)%Qc)
      as [[Hs' _] | [_ ->]]; [done|]. do 2 f_equal.
    rewrite <- (round_of_int (k' * beats_per_minute t)). f_equal.
    rewrite of_int_mult. field. exact Hs. }
  split; [apply Hk|].
  specialize (Hk 1). rewrite Z.mul_1_l in Hk.
  replace (of_int 1 * subdivision t)%Qc with (subdivision t) in Hk.
  - rewrite Hk. by destruct t.
  - symmetry. apply Qcmult_1_l.
Qed.

Section StreamEdges.
Context {Pitch : Type} `{PitchOps Pitch}.
Local Open Scope nat_scope.


Lemma short_slurs_pass (slurs : list (list nat)) (arena : list (Note Pitch)) :
  Forall (fun slur => length slur <= 1) slurs ->
  slur_pass slurs arena = Ok arena.
Proof.
  unfold slur_pass. induction 1 as [|slur slurs Hlen _ IH]; [done|].
  cbn [for_each].
  assert (but_last slur = []) as ->.
  { destruct slur as [|i [|j slur]]; [done | done | cbn in Hlen; lia]. }
  exact IH.
Qed.

(** X15: slurs that span at most one note change nothing and raise
    nothing, even on a note that is not in the stream. *)
Theorem short_slurs_do_nothing
    (ns : list (m21_Note Pitch)) (slurs : list (list nat))
    (tempi : list m21_MetronomeMark) :
  Forall (fun slur => length slur <= 1) slurs ->
  from_stream (mk_m21_Stream ns slurs tempi)
  = from_stream (mk_m21_Stream ns [] tempi).
Proof.
  intros Hshort. unfold from_stream, from_stream_notes.
  cbn [m21_notes m21_slurs]. rewrite initial_notes_Ok.
  cbn [mbind result_bind]. by rewrite short_slurs_pass.
Qed.
End StreamEdges.

(** ** Code emission *)

Lemma fullmatch_identifier_spec (s : String.string) :
  fullmatch_identifier s = true
  <-> String.list_ascii_of_string s <> [] /\
      forall c, c ∈ String.list_ascii_of_string s -> identifier_char c = true.
Proof.
  unfold fullmatch_identifier.
  destruct (String.list_ascii_of_string s) as [|c cs] eqn:Hs.
  - split; [done | by intros [? _]].
  - rewrite forallb_forall. split.
    + intros Hall. split; [done|]. intros c' Hc'. apply Hall.
      by apply list_elem_of_In.
    + intros [_ Hall] c' Hc'. apply Hall. by apply list_elem_of_In.
Qed.

Lemma identifier_char_spec (c : Ascii.ascii) :
  identifier_char c = true
  <-> (65 <= Ascii.N_of_ascii c <= 90)%N \/
      (97 <= Ascii.N_of_ascii c <= 122)%N \/
      Ascii.N_of_ascii c = 95%N.
Proof.
  unfold identifier_char. cbv zeta.
  rewrite !orb_true_iff, !andb_true_iff, !N.leb_le, N.eqb_eq. tauto.
Qed.

Section EmissionFacts.
Context {Pitch : Type} `{PitchOps Pitch}.

(** X20: [get_cpp_string] raises [ValueError] exactly when the variable
    name is empty or has a character other than an ASCII letter or the
    underscore, whatever the melody and its tempo. *)
Theorem get_cpp_string_ValueError (mel : Melody Pitch) (name : String.string) :
  get_cpp_string mel name = Raise ValueError
  <-> String.list_ascii_of_string name = [] \/
      exists c, c ∈ String.list_ascii_of_string name /\
                ~ ((65 <= Ascii.N_of_ascii c <= 90)%N \/
                   (97 <= Ascii.N_of_ascii c <= 122)%N \/
                   Ascii.N_of_ascii c = 95%N).
Proof.
  unfold get_cpp_string.
  destruct (fullmatch_identifier name) eqn:Hf.
  - apply fullmatch_identifier_spec in Hf as [Hne Hall]. split.
    + destruct (get_machine_notes mel) as [mns|e] eqn:Hg; [done|].
      cbn [mbind result_bind]. intros [= ->].
      by apply get_machine_notes_Raise in Hg.
    + intros [He | (c & Hc & Hn)]; [done|].
      destruct Hn. by apply identifier_char_spec, Hall.
  - split; [intros _ | done].
    destruct (decide (String.list_ascii_of_string name = [])) as [|Hne];
      [by left | right].
    destruct (list.Forall_Exists_dec
                (fun c => identifier_char c = true)
                (fun c => identifier_char c <> true)
                (fun c => decide (identifier_char c = true))
                (String.list_ascii_of_string name)) as [Hall | Hex].
    + exfalso. assert (fullmatch_identifier name = true); [|congruence].
      apply fullmatch_identifier_spec. split; [done|].
      by apply list.Forall_forall.
    + apply list.Exists_exists in Hex as (c & Hc & Hn). exists c.
      split; [done|]. by rewrite <- identifier_char_spec.
Qed.

(** X21: with a name of letters and underscores, [get_cpp_string] raises
    what [get_machine_notes] raises, and otherwise emits the definition
    whose size is the number of its rows, one row per note; for a melody
    without notes it emits the array of size 0 with an empty body. *)
Theorem get_cpp_string_size (mel : Melody Pitch) (name : String.string) :
  fullmatch_identifier name = true ->
  (forall e, get_machine_notes mel = Raise e ->
             get_cpp_string mel name = Raise e) /\
  (forall mns,
      get_machine_notes mel = Ok mns ->
      length (machine_note_string <$> mns) = length (notes mel) /\
      get_cpp_string mel name
      = Ok (cpp_definition (Z.of_nat (length mns)) name
              (machine_note_string <$> mns))) /\
  (notes mel = [] ->
   get_cpp_string mel name
   = Ok (String.concat ""
           ["const Melody<0> "; name; " = {{"; newline; newline; "}};"])%string).
Proof.
  intros Hf. unfold get_cpp_string. rewrite Hf. split; [|split].
  - by intros e ->.
  - intros mns Hg.
    pose proof (get_machine_notes_length mel mns Hg) as Hlen.
    rewrite Hg. cbn [mbind result_bind]. unfold number_of_notes.
    by rewrite length_fmap, Hlen.
  - intros Hn. unfold get_machine_notes, number_of_notes. rewrite Hn. done.
Qed.
End EmissionFacts.

(** ** Worked instances of the further properties *)

(** A staccato note starting at 1/2 given before the sample note. *)
Lemma machine_notes_sorted_witness :
  (0 < subdivision sample_tempo)%Qc /\ 0 < beats_per_minute sample_tempo /\
  exists mel mns,
    Melody_init [sample_late_note; sample_note] sample_tempo = Ok mel /\
    get_machine_notes mel = Ok mns /\
    length mns = 2%nat /\
    StronglySorted offset_millis_le mns.
Proof.
  do 2 (split; [reflexivity|]).
  apply (machine_notes_sorted [sample_late_note; sample_note] sample_tempo);
    reflexivity.
Defined.

(** A long note from 0 to 3/4 and the sample note, from 0 to 1/4, given
    after it. *)
Lemma Melody_duration_latest_start_witness :
  [sample_early_long_note; sample_note] <> [] /\
  exists mel l,
    Melody_init [sample_early_long_note; sample_note] sample_tempo = Ok mel /\
    l ∈ [sample_early_long_note; sample_note] /\
    (forall n, n ∈ [sample_early_long_note; sample_note] ->
               (offset n <= offset l)%Qc) /\
    Melody_duration mel = Ok (end_offset l).
Proof.
  split; [discriminate|].
  apply (Melody_duration_latest_start _ sample_tempo). discriminate.
Defined.

Lemma get_actual_duration_covers_starts_witness :
  exists mel mns total,
    Melody_init [sample_late_note; sample_note] sample_tempo = Ok mel /\
    get_machine_notes mel = Ok mns /\
    get_actual_duration mel = Ok total /\
    forall m, m ∈ mns -> offset_millis m <= total.
Proof.
  apply (get_actual_duration_covers_starts
           [sample_late_note; sample_note] sample_tempo);
    [reflexivity | reflexivity | discriminate |].
  intros n Hn.
  apply elem_of_cons in Hn as [-> | Hn];
    [|apply list_elem_of_singleton in Hn as ->];
    (split; [discriminate|]; split; discriminate).
Defined.

(** Three beats at quarter = 120 last 1500 ms. *)
Lemma one_beat_millis_witness :
  beats_per_minute sample_tempo <> 0 /\ subdivision sample_tempo <> 0%Qc /\
  wholes_to_milliseconds sample_tempo (of_int 3 * subdivision sample_tempo)%Qc
  = Ok 1500.
Proof.
  split; [discriminate|]. split; [discriminate|].
  rewrite (one_beat_millis sample_tempo (of_int 3)); [reflexivity|..];
    discriminate.
Defined.


Lemma from_stream_articulation_range_witness :
  slurs_in_stream sample_marked_slur_stream /\
  exists mel,
    from_stream sample_marked_slur_stream = Ok mel /\
    forall n, n ∈ notes mel ->
      (0 < articulation n)%Qc /\ (articulation n <= 1)%Qc.
Proof.
  assert (Hwf : slurs_in_stream sample_marked_slur_stream).
  { unfold slurs_in_stream. cbn. repeat constructor. }
  split; [exact Hwf|].
  destruct (from_stream_articulation_range sample_marked_slur_stream Hwf)
    as (mel & Hm & Hall).
  exists mel. split; [exact Hm|]. intros n Hn.
  by destruct (Hall n Hn) as (_ & ? & ? & _).
Defined.

(** The first note is in the slur, and its tenuto, found after an accent,
    still gives it 6/7. *)
Lemma first_table_marking_wins_witness :
  slurs_in_stream sample_marked_slur_stream /\
  slurred (m21_slurs sample_marked_slur_stream) 0 /\
  exists arena,
    from_stream_notes sample_marked_slur_stream = Ok arena /\
    articulation <$> arena !! 0%nat = Some (Fraction 6 7).
Proof.
  assert (Hwf : slurs_in_stream sample_marked_slur_stream).
  { unfold slurs_in_stream. cbn. repeat constructor. }
  split; [exact Hwf|]. split.
  { apply Exists_cons_hd. cbn. apply list_elem_of_here. }
  destruct (first_table_marking_wins sample_marked_slur_stream Hwf)
    as (arena & Ha & Hwin).
  exists arena. split; [exact Ha|].
  apply (Hwin 0%nat _ [Accent] Tenuto [] _ eq_refl eq_refl).
  - by repeat constructor.
  - reflexivity.
  - intros [Hs _]. cbn in Hs.
    apply elem_of_cons in Hs as [Hs | Hs]; [discriminate|].
    apply list_elem_of_singleton in Hs. discriminate.
Defined.

(** The second note, marked with an accent only, is legato by the slur;
    the third, last of the slur, keeps 5/7. *)
Lemma unmapped_markings_are_ignored_witness :
  slurs_in_stream sample_marked_slur_stream /\
  exists arena,
    from_stream_notes sample_marked_slur_stream = Ok arena /\
    articulation <$> arena !! 1%nat = Some (Fraction 1 1).
Proof.
  assert (Hwf : slurs_in_stream sample_marked_slur_stream).
  { unfold slurs_in_stream. cbn. repeat constructor. }
  split; [exact Hwf|].
  destruct (unmapped_markings_are_ignored sample_marked_slur_stream Hwf)
    as (arena & Ha & Hign).
  exists arena. split; [exact Ha|].
  destruct (Hign 1%nat _ eq_refl) as [Hsl _].
  - by repeat constructor.
  - apply Hsl. apply Exists_cons_hd. cbn.
    apply list_elem_of_further, list_elem_of_here.
Defined.

Lemma short_slurs_do_nothing_witness :
  Forall (fun slur => (length slur <= 1)%nat) sample_short_slurs /\
  from_stream (mk_m21_Stream (m21_notes sample_slur_stream)
                 sample_short_slurs [])
  = from_stream (mk_m21_Stream (m21_notes sample_slur_stream) [] []).
Proof.
  assert (Hs : Forall (fun slur => (length slur <= 1)%nat) sample_short_slurs)
    by (repeat constructor).
  split; [exact Hs|]. by apply short_slurs_do_nothing.
Defined.

Lemma tie_with_self_assoc_witness :
  pitch sample_note = pitch sample_late_note /\
  pitch sample_late_note = pitch sample_early_long_note /\
  tie_with sample_note sample_note = Ok sample_note /\
  (ab ← tie_with sample_note sample_late_note;
   tie_with ab sample_early_long_note)
  = (bc ← tie_with sample_late_note sample_early_long_note;
     tie_with sample_note bc).
Proof.
  do 2 (split; [reflexivity|]). split.
  - apply (proj1 tie_with_self_assoc).
  - apply (proj2 tie_with_self_assoc); reflexivity.
Defined.

(** The long note contains the sample note. *)
Lemma tie_with_never_shortens_witness :
  pitch sample_early_long_note = pitch sample_note /\
  exists r,
    tie_with sample_early_long_note sample_note = Ok r /\
    (duration sample_note <= duration r)%Qc /\
    offset r = offset sample_early_long_note /\
    duration r = duration sample_early_long_note.
Proof.
  split; [reflexivity|].
  destruct (tie_with_never_shortens sample_early_long_note sample_note eq_refl)
    as (r & Hr & _ & Hb & Hin).
  exists r. split; [exact Hr|]. split; [exact Hb|].
  apply Hin; discriminate.
Defined.

(** Quarter = 120 read in half notes becomes 240 by this conversion. *)
Lemma convert_to_subdivision_multiple_witness :
  subdivision sample_tempo <> 0%Qc /\
  convert_to_subdivision sample_tempo (of_int 2 * subdivision sample_tempo)%Qc
  = Ok (mkTempo (of_int 2 * subdivision sample_tempo)%Qc 240).
Proof.
  split; [discriminate|].
  apply (proj1 (convert_to_subdivision_multiple sample_tempo 2 ltac:(discriminate))).
Defined.

Lemma get_cpp_string_size_witness :
  fullmatch_identifier "MY_MELODY"%string = true /\
  get_cpp_string (mkMelody (@nil (Note SamplePitch)) sample_tempo)
    "MY_MELODY"%string
  = Ok (String.concat ""
          ["const Melody<0> "; "MY_MELODY"; " = {{"; newline; newline;
           "}};"])%string.
Proof.
  split; [reflexivity|].
  apply (proj2 (proj2 (get_cpp_string_size
                         (mkMelody (@nil (Note SamplePitch)) sample_tempo)
                         "MY_MELODY"%string eq_refl))).
  reflexivity.
Defined.
